(** * Podcast.py: a shallow embedding and its verified properties

    The program keeps two tables (podcasts, tracks) behind SQLAlchemy, fills
    them from parsed feeds, downloads audio with curl, tags files with
    EasyID3 and writes M3U playlists.  The embedding keeps the tables as
    row lists, threads them together with a trace of external effects
    through a state-and-exception monad, and takes every external
    collaborator (feedparser, curl, EasyID3, user-supplied regular
    expressions) as a variable. *)

From Stdlib Require Import ZArith String Ascii DecimalString.
From stdpp Require Import base decidable option list gmap strings sorting.

Local Open Scope string_scope.
Local Open Scope list_scope.
Local Open Scope Z_scope.

(* ===================================================================== *)
(** ** Python values the program manipulates *)
(* ===================================================================== *)

Module Py.

(** The exceptions this program can meet.  Nothing in Podcast.py catches
    an exception, so a raised one ends the whole invocation. *)
Inductive exn : Type :=
| KeyError (key : string)
| TypeError
| AttributeError
| IndexError
| IntegrityError
| LibraryError.

Inductive outcome (A : Type) : Type :=
| Returned (a : A)
| Raised (e : exn).
Arguments Returned {A} a.
Arguments Raised {A} e.

Definition is_raised {A} (o : outcome A) : bool :=
  match o with Raised _ => true | Returned _ => false end.

(** [d[k]] on a mapping whose key may be missing. *)
Definition getitem {A} (key : string) (v : option A) : outcome A :=
  match v with
  | Some a => Returned a
  | None => Raised (KeyError key)
  end.

(** [s.split(sep)] for a one-character separator: never empty. *)
Fixpoint split (sep : ascii) (s : string) : list string :=
  match s with
  | EmptyString => [EmptyString]
  | String c rest =>
      if Ascii.eqb c sep then EmptyString :: split sep rest
      else match split sep rest with
           | [] => [String c EmptyString]
           | h :: t => String c h :: t
           end
  end.

(** [l[0]] and [l[-1]] on the result of a split. *)
Definition first_item (l : list string) : string := hd EmptyString l.
Definition last_item (l : list string) : string := List.last l EmptyString.

(** ["{}".format(n)] for an integer. *)
Definition format_int (n : Z) : string := NilZero.string_of_int (Z.to_int n).

(** A [datetime.date]: what a Date column gives back. *)
Record date : Type := mkdate { year : Z; month : Z; day : Z }.

Definition date_ltb (a b : date) : bool :=
  (year a <? year b)
  || ((year a =? year b) && ((month a <? month b)
      || ((month a =? month b) && (day a <? day b)))).

#[global] Instance date_eq_dec : EqDecision date.
Proof. solve_decision. Defined.

#[global] Instance exn_eq_dec : EqDecision exn.
Proof. solve_decision. Defined.

End Py.
Import Py.

(* ===================================================================== *)
(** ** The two tables (Database.__init__, lines 23-38) *)
(* ===================================================================== *)

(** A row of [podcasts]. *)
Record cast_row : Type := mkcast {
  cast_id : Z;
  cast_url : option string;
  cast_name : option string;
  cast_author : option string
}.

(** A row of [tracks]; [gid] and [podcast] form the primary key, every
    other column is nullable. *)
Record track_row : Type := mktrack {
  gid : string;
  podcast : Z;
  title : option string;
  description : option string;
  published : option date;
  track_url : option string;
  track_file : option string
}.

Record store : Type := mkstore {
  casts : list cast_row;
  tracks : list track_row
}.

#[global] Instance track_row_eq_dec : EqDecision track_row.
Proof. solve_decision. Defined.
#[global] Instance cast_row_eq_dec : EqDecision cast_row.
Proof. solve_decision. Defined.

(** The key of a track row, and the rows of a table under a key. *)
Definition has_key (p : Z) (g : string) (r : track_row) : Prop :=
  podcast r = p ∧ gid r = g.

#[global] Instance has_key_dec p g r : Decision (has_key p g r).
Proof. unfold has_key. apply _. Defined.

Definition rows_with_key (p : Z) (g : string) (t : list track_row) : list track_row :=
  filter (has_key p g) t.

(** PrimaryKeyConstraint('gid', 'podcast'): no two rows share a key. *)
Definition key_of (r : track_row) : Z * string := (podcast r, gid r).

Definition primary_key_ok (t : list track_row) : Prop :=
  NoDup (key_of <$> t).

(* ===================================================================== *)
(** ** The fragment of the SQLAlchemy expression language in use *)
(* ===================================================================== *)

Module Sql.

Inductive column : Type := c_gid | c_podcast.

Inductive literal : Type := LInt (n : Z) | LStr (s : string).

Inductive operand : Type :=
| Column (c : column)
| BindParameter (v : literal).

(** [left == right], the only operator the program builds. *)
Record BinaryExpression : Type := Equals { left : operand; right : operand }.

#[global] Instance column_eq_dec : EqDecision column.
Proof. solve_decision. Defined.
#[global] Instance literal_eq_dec : EqDecision literal.
Proof. solve_decision. Defined.

(** Python-level truth of an expression object.  SQLAlchemy gives an
    equality expression the truth value "both operands are the same
    object"; a column and a freshly bound literal never are. *)
Definition same_object (a b : operand) : bool :=
  match a, b with
  | Column c1, Column c2 => bool_decide (c1 = c2)
  | _, _ => false
  end.

Definition truth (e : BinaryExpression) : bool :=
  same_object (left e) (right e).

(** Python's [a and b]: [a] when [a] is falsy, else [b]. *)
Definition py_and (a b : BinaryExpression) : BinaryExpression :=
  if truth a then b else a.

(** What the database computes for a row of [tracks]. *)
Definition value_in (r : track_row) (o : operand) : literal :=
  match o with
  | Column c_gid => LStr (gid r)
  | Column c_podcast => LInt (podcast r)
  | BindParameter v => v
  end.

Definition holds (e : BinaryExpression) (r : track_row) : bool :=
  bool_decide (value_in r (left e) = value_in r (right e)).

(** [.values(...)] of an UPDATE: the columns that are assigned. *)
Record assignments : Type := Values {
  set_title : option string;
  set_description : option string;
  set_published : option date;
  set_track_url : option string;
  set_track_file : option string
}.

Definition override {A} (new old : option A) : option A :=
  match new with Some x => Some x | None => old end.

Definition assign (a : assignments) (r : track_row) : track_row :=
  {| gid := gid r;
     podcast := podcast r;
     title := override (set_title a) (title r);
     description := override (set_description a) (description r);
     published := override (set_published a) (published r);
     track_url := override (set_track_url a) (track_url r);
     track_file := override (set_track_file a) (track_file r) |}.

(** tracks.update().values(a).where(e) *)
Definition update (a : assignments) (e : BinaryExpression)
    (t : list track_row) : list track_row :=
  (λ r, if holds e r then assign a r else r) <$> t.

(** select([tracks]).where(e), in storage order *)
Definition select (e : BinaryExpression) (t : list track_row) : list track_row :=
  List.filter (holds e) t.

(** tracks.delete().where(e) *)
Definition delete (e : BinaryExpression) (t : list track_row) : list track_row :=
  List.filter (λ r, negb (holds e r)) t.

(** tracks.insert().values(r): refused when the key is taken. *)
Definition insert (r : track_row) (t : list track_row) : outcome (list track_row) :=
  if bool_decide (key_of r ∈ key_of <$> t) then Raised IntegrityError
  else Returned (t ++ [r]).

End Sql.
Import Sql.

(* ===================================================================== *)
(** ** External effects and the monad that threads them *)
(* ===================================================================== *)

(** What the program does to the outside: curl runs, tag saves and files
    written.  Console output and the fixed sleep are left out. *)
Inductive event : Type :=
| Curl (file_name : string) (source : string) (exit_code : Z)
| TagsSaved (file : string) (tags : list (string * option string))
| FileWritten (path : string) (content : string).

Record world : Type := mkworld {
  db : store;
  trace : list event
}.

(** A computation runs from a world to a world and either returns or
    raises; the world reached when it raises is kept, as nothing rolls
    back. *)
Definition M (A : Type) : Type := world → world * outcome A.

Definition ret {A} (a : A) : M A := λ w, (w, Returned a).

Definition bind {A B} (c : M A) (k : A → M B) : M B :=
  λ w, match c w with
       | (w', Returned a) => k a w'
       | (w', Raised e) => (w', Raised e)
       end.

Notation "x <- c ;; k" := (bind c (λ x, k))
  (at level 100, c at next level, right associativity).
Notation "c ;;; k" := (bind c (λ _, k))
  (at level 100, right associativity).

Definition lift {A} (o : outcome A) : M A := λ w, (w, o).

Definition emit (e : event) : M unit :=
  λ w, ({| db := db w; trace := trace w ++ [e] |}, Returned tt).

Definition read_tracks : M (list track_row) := λ w, (w, Returned (tracks (db w))).
Definition read_casts : M (list cast_row) := λ w, (w, Returned (casts (db w))).

Definition write_tracks (t : list track_row) : M unit :=
  λ w, ({| db := {| casts := casts (db w); tracks := t |}; trace := trace w |},
        Returned tt).
Definition write_casts (c : list cast_row) : M unit :=
  λ w, ({| db := {| casts := c; tracks := tracks (db w) |}; trace := trace w |},
        Returned tt).

(** A [for] loop whose body may raise. *)
Fixpoint for_each {A} (l : list A) (body : A → M unit) : M unit :=
  match l with
  | [] => ret tt
  | x :: rest => body x ;;; for_each rest body
  end.

(** Sequencing inside plain outcomes. *)
Definition and_then {A B} (o : outcome A) (k : A → outcome B) : outcome B :=
  match o with
  | Returned a => k a
  | Raised e => Raised e
  end.

(* ===================================================================== *)
(** ** What feedparser hands back *)
(* ===================================================================== *)

(** Every key the program reads may be missing from the parsed document;
    an unreachable or malformed feed parses to a document with no channel
    title and no items.  A date key may be missing, or be there and hold
    [None] (a date feedparser could not parse), or hold a date. *)
Record link : Type := mklink {
  link_type : option string;
  href : option string
}.

Record item : Type := mkitem {
  item_id : option string;
  item_title : option string;
  item_description : option string;
  published_parsed : option (option date);
  date_parsed : option (option date);
  links : option (list link)
}.

Record feed : Type := mkfeed {
  channel_title : option string;
  channel_author : option string;
  items : list item
}.

(** The in-memory [Podcast] object built by [Database.list]. *)
Record Podcast : Type := mkPodcast {
  pid : Z;
  purl : option string;
  name : option string;
  author : option string
}.

(** The [fields] dictionary of [Podcast.refresh]: the four keys always
    set, and the two set only when the item provides them. *)
Record fields : Type := mkfields {
  f_gid : string;
  f_podcast : Z;
  f_title : string;
  f_description : string;
  f_published : option date;
  f_track_url : option string
}.

(* ===================================================================== *)
(** ** Pure helpers of the program *)
(* ===================================================================== *)

(** Lines 135-138: the first link that declares a type whose part before
    the first slash is "audio" and that carries an href. *)
Fixpoint scan_links (ls : list link) : option string :=
  match ls with
  | [] => None
  | l :: rest =>
      match link_type l, href l with
      | Some t, Some h =>
          if String.eqb (first_item (split "/" t)) "audio" then Some h
          else scan_links rest
      | _, _ => scan_links rest
      end
  end.

(** [datetime.fromtimestamp(mktime(v))]: [mktime] raises on [None].
    Dates are kept as calendar dates: the passage through [mktime] and
    [fromtimestamp] is taken to give back the day the feed states. *)
Definition mktime (v : option date) : outcome date :=
  match v with
  | Some d => Returned d
  | None => Raised TypeError
  end.

(** Lines 131-134: the first date key that is there is converted, the
    second one is looked at only when the first is missing. *)
Definition item_published (track : item) : outcome (option date) :=
  match published_parsed track with
  | Some v => and_then (mktime v) (λ d, Returned (Some d))
  | None =>
      match date_parsed track with
      | Some v => and_then (mktime v) (λ d, Returned (Some d))
      | None => Returned None
      end
  end.

(** Lines 126-138: the [fields] of one feed item. *)
Definition track_fields (self_id : Z) (track : item) : outcome fields :=
  and_then (getitem "id" (item_id track)) (λ g,
  and_then (getitem "title" (item_title track)) (λ t,
  and_then (getitem "description" (item_description track)) (λ d,
  and_then (item_published track) (λ p,
  and_then (getitem "links" (links track)) (λ ls,
  Returned {| f_gid := g; f_podcast := self_id; f_title := t;
              f_description := d; f_published := p;
              f_track_url := scan_links ls |}))))).

(** Lines 143-147: [fields] without its key columns, as UPDATE values. *)
Definition update_values (f : fields) : assignments :=
  {| set_title := Some (f_title f);
     set_description := Some (f_description f);
     set_published := f_published f;
     set_track_url := f_track_url f;
     set_track_file := None |}.

(** Lines 153-156: [fields] as a new row. *)
Definition new_row (f : fields) : track_row :=
  {| gid := f_gid f;
     podcast := f_podcast f;
     title := Some (f_title f);
     description := Some (f_description f);
     published := f_published f;
     track_url := f_track_url f;
     track_file := None |}.

Definition podcast_is (p : Z) : BinaryExpression :=
  Equals (Column c_podcast) (BindParameter (LInt p)).
Definition gid_is (g : string) : BinaryExpression :=
  Equals (Column c_gid) (BindParameter (LStr g)).

(** Lines 148-149: the filter of the UPDATE in [refresh]. *)
Definition refresh_filter (self_id : Z) (g : string) : BinaryExpression :=
  py_and (podcast_is self_id) (gid_is g).

(** Lines 172-173: the filter of the UPDATE in [download]. *)
Definition download_filter (self_id : Z) (g : string) : BinaryExpression :=
  py_and (gid_is g) (podcast_is self_id).

(** Lines 163-164. *)
Definition file_name_of (directory : string) (self_id : Z) (g : string) : string :=
  directory +:+ "/cast" +:+ format_int self_id +:+ "-"
    +:+ last_item (split "/" g) +:+ ".mp3".

Definition newline : string := String (ascii_of_nat 10) EmptyString.

(** Lines 85-87: the playlist file name derived from a podcast name. *)
Definition is_quote (c : ascii) : bool :=
  Ascii.eqb c "'" || Ascii.eqb c (ascii_of_nat 34).

Fixpoint drop_quotes (s : string) : string :=
  match s with
  | EmptyString => EmptyString
  | String c rest =>
      if is_quote c then drop_quotes rest else String c (drop_quotes rest)
  end.

Definition is_plain (c : ascii) : bool :=
  let n := nat_of_ascii c in
  (n =? 32)%nat
  || ((97 <=? n)%nat && (n <=? 122)%nat)
  || ((65 <=? n)%nat && (n <=? 90)%nat)
  || ((48 <=? n)%nat && (n <=? 57)%nat).

Fixpoint collapse (in_run : bool) (s : string) : string :=
  match s with
  | EmptyString => EmptyString
  | String c rest =>
      if is_plain c then String c (collapse false rest)
      else if in_run then collapse true rest
      else String " " (collapse true rest)
  end.

Definition is_space (c : ascii) : bool :=
  let n := nat_of_ascii c in
  (n =? 32)%nat || ((9 <=? n)%nat && (n <=? 13)%nat)
  || ((28 <=? n)%nat && (n <=? 31)%nat).

Fixpoint lstrip (s : string) : string :=
  match s with
  | EmptyString => EmptyString
  | String c rest => if is_space c then lstrip rest else s
  end.

Fixpoint rstrip (s : string) : string :=
  match s with
  | EmptyString => EmptyString
  | String c rest =>
      match rstrip rest with
      | EmptyString => if is_space c then EmptyString else String c EmptyString
      | tail => String c tail
      end
  end.

Definition strip (s : string) : string := rstrip (lstrip s).

Definition safe_file_name (cast_name : option string) : outcome string :=
  match cast_name with
  | None => Raised TypeError
  | Some n => Returned (strip (collapse false (drop_quotes n)))
  end.

(** Line 231: [sorted(tracks, key = published, reverse = True)].  Python
    compares keys with [<]; comparing with [None] raises, and every
    element of a list of two or more is compared at least once. *)
Fixpoint insert_desc (x : track_row * date) (l : list (track_row * date))
    : list (track_row * date) :=
  match l with
  | [] => [x]
  | y :: rest =>
      if date_ltb (snd x) (snd y) then y :: insert_desc x rest
      else x :: y :: rest
  end.

Definition sort_desc (l : list (track_row * date)) : list (track_row * date) :=
  foldr insert_desc [] l.

Fixpoint with_keys (l : list track_row) : option (list (track_row * date)) :=
  match l with
  | [] => Some []
  | r :: rest =>
      match published r, with_keys rest with
      | Some d, Some ks => Some ((r, d) :: ks)
      | _, _ => None
      end
  end.

Definition sorted_by_published (l : list track_row) : outcome (list track_row) :=
  match l with
  | [] | [_] => Returned l
  | _ =>
      match with_keys l with
      | Some ks => Returned (fst <$> sort_desc ks)
      | None => Raised TypeError
      end
  end.

(* ===================================================================== *)
(** ** The program *)
(* ===================================================================== *)

Section Program.

(** [feedparser.parse(url)]. *)
Variable feedparser_parse : option string → feed.
(** Exit status of [curl -L -o file_name source]. *)
Variable curl : string → string → Z.
(** Whether [EasyID3(path)] loads the file. *)
Variable EasyID3 : string → bool.
(** Whether the tag object takes [track_meta[key] = value]. *)
Variable tag_accepts : string → option string → bool.
(** [re.sub(pattern, repl, s)] for a pattern given on the command line;
    [None] when the pattern is refused. *)
Variable re_sub : string → string → string → option string.

(** *** class Database *)

(** Lines 41-43; the sequence hands out the successor of the largest id. *)
Definition next_id (cs : list cast_row) : Z :=
  1 + foldr (λ c m, Z.max (cast_id c) m) 0 cs.

Definition Database_add (u : string) : M unit :=
  cs <- read_casts ;;
  write_casts (cs ++ [ {| cast_id := next_id cs; cast_url := Some u;
                          cast_name := None; cast_author := None |} ]).

(** Lines 45-49. *)
Definition Database_delete (id : Z) : M unit :=
  t <- read_tracks ;;
  write_tracks (Sql.delete (podcast_is id) t) ;;;
  cs <- read_casts ;;
  write_casts (List.filter (λ c, negb (cast_id c =? id)) cs).

(** Lines 52-59. *)
Definition Database_list (id : option Z) : M (list Podcast) :=
  cs <- read_casts ;;
  let selected :=
    match id with
    | None => cs
    | Some i => List.filter (λ c, cast_id c =? i) cs
    end in
  ret ((λ c, {| pid := cast_id c; purl := cast_url c;
                name := cast_name c; author := cast_author c |}) <$> selected).

(** *** class Podcast *)

(** Lines 183-187. *)
Definition Podcast_get_tracks (self : Podcast) : M (list track_row) :=
  t <- read_tracks ;;
  ret (Sql.select (podcast_is (pid self)) t).

(** Lines 116-122: the gids stored for a podcast. *)
Definition existing_gids_of (self_id : Z) (t : list track_row) : gset string :=
  list_to_set (gid <$> Sql.select (podcast_is self_id) t).

(** Lines 141-157: update when the gid was stored, insert otherwise. *)
Definition insert_or_update_track (self_id : Z) (existing_gids : gset string)
    (f : fields) : M unit :=
  t <- read_tracks ;;
  if bool_decide (f_gid f ∈ existing_gids) then
    write_tracks (Sql.update (update_values f) (refresh_filter self_id (f_gid f)) t)
  else
    t' <- lift (Sql.insert (new_row f) t) ;;
    write_tracks t'.

(** Lines 126-157: the body of the loop over the feed items. *)
Definition refresh_track (self_id : Z) (existing_gids : gset string)
    (track : item) : M unit :=
  f <- lift (track_fields self_id track) ;;
  insert_or_update_track self_id existing_gids f.

(** Lines 102-157. *)
Definition Podcast_refresh (self : Podcast) : M Podcast :=
  let data := feedparser_parse (purl self) in
  n <- lift (getitem "title" (channel_title data)) ;;
  a <- lift (getitem "author" (channel_author data)) ;;
  cs <- read_casts ;;
  write_casts ((λ c, if cast_id c =? pid self
                     then {| cast_id := cast_id c; cast_url := cast_url c;
                             cast_name := Some n; cast_author := Some a |}
                     else c) <$> cs) ;;;
  t <- read_tracks ;;
  let existing_gids := existing_gids_of (pid self) t in
  for_each (items data) (refresh_track (pid self) existing_gids) ;;;
  ret {| pid := pid self; purl := purl self; name := Some n; author := Some a |}.

(** The storage step for one episode taken on its own: the stored gids
    are read (lines 116-122) and the episode is written (lines 141-157),
    as a refresh of a one-item feed does. *)
Definition upsertEpisode (f : fields) : M unit :=
  t <- read_tracks ;;
  insert_or_update_track (f_podcast f) (existing_gids_of (f_podcast f) t) f.

(** Lines 194-222: tagging one track. *)
Definition set_tag (key : string) (value : option string) : M unit :=
  lift (if tag_accepts key value then Returned tt else Raised LibraryError).

Definition tag_track (self : Podcast) (track : track_row)
    (file_override : option string) : M unit :=
  let target :=
    match file_override with
    | Some f => Some f
    | None => track_file track
    end in
  match target with
  | None => ret tt
  | Some f =>
      lift (if EasyID3 f then Returned tt else Raised LibraryError) ;;;
      set_tag "album" (name self) ;;;
      set_tag "artist" (author self) ;;;
      set_tag "genre" (Some "Podcast") ;;;
      set_tag "title" (title track) ;;;
      d <- lift (match published track with
                 | Some d => Returned d
                 | None => Raised AttributeError
                 end) ;;
      let stamp := format_int (year d) +:+ "-" +:+ format_int (month d)
                     +:+ "-" +:+ format_int (day d) in
      set_tag "date" (Some stamp) ;;;
      emit (TagsSaved f [("album", name self); ("artist", author self);
                         ("genre", Some "Podcast"); ("title", title track);
                         ("date", Some stamp)])
  end.

(** Lines 189-192. *)
Definition Podcast_update_metadata (self : Podcast) (track : option track_row)
    (file_override : option string) : M unit :=
  match track with
  | None =>
      ts <- Podcast_get_tracks self ;;
      for_each ts (λ t, tag_track self t None)
  | Some t => tag_track self t file_override
  end.

(** Lines 162-177: the body of the loop over the podcast's tracks. *)
Definition download_track (self : Podcast) (directory : string)
    (update_metadata : bool) (track : track_row) : M unit :=
  match track_file track with
  | Some _ => ret tt
  | None =>
      let file_name := file_name_of directory (pid self) (gid track) in
      source <- lift (match track_url track with
                      | Some u => Returned u
                      | None => Raised TypeError
                      end) ;;
      emit (Curl file_name source (curl file_name source)) ;;;
      t <- read_tracks ;;
      write_tracks (Sql.update
                      {| set_title := None; set_description := None;
                         set_published := None; set_track_url := None;
                         set_track_file := Some file_name |}
                      (download_filter (pid self) (gid track)) t) ;;;
      if update_metadata
      then Podcast_update_metadata self (Some track) (Some file_name)
      else ret tt
  end.

(** Lines 159-177. *)
Definition Podcast_download (self : Podcast) (directory : string)
    (update_metadata : bool) : M unit :=
  ts <- Podcast_get_tracks self ;;
  for_each ts (download_track self directory update_metadata).

(** Lines 239-240: the optional rewrite of a path. *)
Definition substituted (path_subst : option (list string)) (f : string)
    : outcome string :=
  match path_subst with
  | None | Some [] => Returned f
  | Some [_] => Raised IndexError
  | Some (pattern :: repl :: _) =>
      match re_sub pattern repl f with
      | Some s => Returned s
      | None => Raised LibraryError
      end
  end.

(** Lines 233-245: what one track adds to the open file, and whether
    writing it raised. *)
Definition write_entry (extm3u : bool) (path_subst : option (list string))
    (track : track_row) : string * outcome unit :=
  match track_file track with
  | None => (EmptyString, Returned tt)
  | Some f =>
      let info :=
        if extm3u then
          match title track with
          | Some t => ("#EXTINF:-1, " +:+ t +:+ newline, Returned tt)
          | None => ("#EXTINF:-1, ", Raised TypeError)
          end
        else (EmptyString, Returned tt) in
      match info with
      | (h, Raised e) => (h, Raised e)
      | (h, Returned _) =>
          match substituted path_subst f with
          | Raised e => (h, Raised e)
          | Returned f' =>
              (h +:+ f' +:+ (if extm3u then newline +:+ newline else newline),
               Returned tt)
          end
      end
  end.

Fixpoint write_entries (extm3u : bool) (path_subst : option (list string))
    (ts : list track_row) : string * outcome unit :=
  match ts with
  | [] => (EmptyString, Returned tt)
  | t :: rest =>
      match write_entry extm3u path_subst t with
      | (s, Raised e) => (s, Raised e)
      | (s, Returned _) =>
          let '(s', o) := write_entries extm3u path_subst rest in
          (s +:+ s', o)
      end
  end.

(** Lines 224-245.  The file is opened before anything can raise, so
    whatever was written by then is on disk when the block is left.  A
    query result cannot be sliced, so a [limit] raises. *)
Definition Podcast_dump_to_m3u (self : Podcast) (file : string)
    (limit : option Z) (extm3u : bool) (path_subst : option (list string))
    : M unit :=
  ts <- Podcast_get_tracks self ;;
  match limit with
  | Some _ => emit (FileWritten file EmptyString) ;;; lift (Raised TypeError)
  | None =>
      let header :=
        if extm3u then "#EXTM3U" +:+ newline +:+ newline else EmptyString in
      match sorted_by_published ts with
      | Raised e => emit (FileWritten file header) ;;; lift (Raised e)
      | Returned sorted =>
          let '(body, o) := write_entries extm3u path_subst sorted in
          emit (FileWritten file (header +:+ body)) ;;; lift o
      end
  end.

(** *** class Database, the batch operations *)

(** Lines 61-63. *)
Definition Database_refresh (id : option Z) : M unit :=
  cs <- Database_list id ;;
  for_each cs (λ cast, Podcast_refresh cast ;;; ret tt).

(** Lines 65-69. *)
Definition Database_download (directory : string) (id : option Z)
    (refresh_first update_metadata : bool) : M unit :=
  cs <- Database_list id ;;
  for_each cs (λ cast,
    cast' <- (if refresh_first then Podcast_refresh cast else ret cast) ;;
    Podcast_download cast' directory update_metadata).

(** Lines 71-73. *)
Definition Database_update_metadata (id : option Z) : M unit :=
  cs <- Database_list id ;;
  for_each cs (λ cast, Podcast_update_metadata cast None None).

(** Lines 84-89: the body of the loop over the podcasts. *)
Definition playlist_of (directory : string) (path_subst : option (list string))
    (cast : Podcast) : M unit :=
  safe <- lift (safe_file_name (name cast)) ;;
  Podcast_dump_to_m3u cast (directory +:+ "/" +:+ safe +:+ ".m3u")
    None true path_subst.

(** Lines 79-83: what runs before the playlists are written. *)
Definition before_playlists (id : option Z) (refresh_first : bool)
    (download_first : option string) (update_metadata : bool) : M unit :=
  match download_first with
  | Some d => Database_download d id refresh_first update_metadata
  | None => if update_metadata then Database_update_metadata id else ret tt
  end.

(** Lines 75-89. *)
Definition Database_generate_playlists (directory : string) (id : option Z)
    (refresh_first : bool) (download_first : option string)
    (update_metadata : bool) (path_subst : option string) : M unit :=
  let path_subst := split "^" <$> path_subst in
  before_playlists id refresh_first download_first update_metadata ;;;
  cs <- Database_list id ;;
  for_each cs (playlist_of directory path_subst).

End Program.

(* ===================================================================== *)
(** ** Concrete stores, feeds and collaborators used as test inputs *)
(* ===================================================================== *)

Module Examples.

Definition episode (g : string) (p : Z) (t : string) (d : option date)
    (u f : option string) : track_row :=
  {| gid := g; podcast := p; title := Some t; description := Some "about";
     published := d; track_url := u; track_file := f |}.

Definition cast (i : Z) (u : string) (n a : option string) : cast_row :=
  {| cast_id := i; cast_url := Some u; cast_name := n; cast_author := a |}.

Definition day1 : date := {| year := 2020; month := 3; day := 7 |}.
Definition day2 : date := {| year := 2021; month := 11; day := 30 |}.

(** Two subscriptions; the first holds two episodes, the second one
    episode that shares a gid with the first. *)
Definition two_casts : store :=
  {| casts := [cast 1 "http://one/feed" (Some "One") (Some "Ann");
               cast 2 "http://two/feed" None None];
     tracks := [episode "a" 1 "Old A" (Some day1) (Some "http://one/a.mp3") None;
                episode "b" 1 "Old B" (Some day2) (Some "http://one/b.mp3") None;
                episode "a" 2 "Other A" (Some day1) (Some "http://two/a.mp3")
                  (Some "/keep/two-a.mp3")] |}.

Definition start (s : store) : world := {| db := s; trace := [] |}.

Definition podcast_one : Podcast :=
  {| pid := 1; purl := Some "http://one/feed"; name := Some "One";
     author := Some "Ann" |}.
Definition podcast_two : Podcast :=
  {| pid := 2; purl := Some "http://two/feed"; name := None; author := None |}.

Definition audio (h : string) : link :=
  {| link_type := Some "audio/mpeg"; href := Some h |}.

Definition entry (g t : string) (d : option date) (ls : list link) : item :=
  {| item_id := Some g; item_title := Some t; item_description := Some "about";
     published_parsed := Some <$> d; date_parsed := None; links := Some ls |}.

(** The feed of the first subscription now carries a retitled "a". *)
Definition retitled_feed : feed :=
  {| channel_title := Some "One"; channel_author := Some "Ann";
     items := [entry "a" "New A" (Some day1) [audio "http://one/a.mp3"]] |}.

(** What feedparser returns for an unreachable or malformed document. *)
Definition failed_feed : feed :=
  {| channel_title := None; channel_author := None; items := [] |}.

Definition good_feed : feed :=
  {| channel_title := Some "Two"; channel_author := Some "Bob";
     items := [entry "z" "Zed" (Some day2) [audio "http://two/z.mp3"]] |}.

(** The first feed cannot be fetched, the second can. *)
Definition first_feed_down (u : option string) : feed :=
  if bool_decide (u = Some "http://two/feed") then good_feed else failed_feed.

(** A feed whose second item has no title. *)
Definition untitled : item :=
  {| item_id := Some "u"; item_title := None; item_description := Some "about";
     published_parsed := None; date_parsed := None; links := Some [] |}.

Definition broken_feed : feed :=
  {| channel_title := Some "One"; channel_author := Some "Ann";
     items := [entry "a" "New A" (Some day1) [audio "http://one/a.mp3"];
               untitled;
               entry "z" "Zed" None []] |}.

(** The first feed can be fetched, every other one cannot. *)
Definition second_feed_down (u : option string) : feed :=
  if bool_decide (u = Some "http://one/feed") then retitled_feed else failed_feed.

Definition serves (f : feed) (_ : option string) : feed := f.

(** curl failing on every transfer (exit status 22), and succeeding. *)
Definition curl_fails (_ _ : string) : Z := 22.
Definition curl_works (_ _ : string) : Z := 0.

Definition loads (_ : string) : bool := true.
Definition refuses (_ : string) : bool := false.
Definition takes (_ : string) (_ : option string) : bool := true.
Definition no_regex (_ _ s : string) : option string := Some s.

Definition new_a : fields :=
  {| f_gid := "a"; f_podcast := 1; f_title := "New A";
     f_description := "about"; f_published := None;
     f_track_url := Some "http://one/a.mp3" |}.

Definition newer_a : fields :=
  {| f_gid := "a"; f_podcast := 1; f_title := "Newer A";
     f_description := "more"; f_published := Some day2;
     f_track_url := None |}.




Definition one_cast : store :=
  {| casts := [cast 1 "http://one/feed" None None]; tracks := [] |}.

(** A downloaded episode without a publication date. *)
Definition undated : track_row :=
  episode "c" 1 "Undated" None (Some "http://one/c.mp3") (Some "/d/cast1-c.mp3").

(** Two episodes not yet downloaded, one of them without a date. *)
Definition undated_pair : store :=
  {| casts := [cast 1 "http://one/feed" (Some "One") (Some "Ann")];
     tracks := [episode "a" 1 "Dated" (Some day1) (Some "http://one/a.mp3") None;
                episode "c" 1 "Undated" None (Some "http://one/c.mp3") None] |}.

(** One subscription holding the single episode "b". *)
Definition one_sibling : store :=
  {| casts := [cast 1 "http://one/feed" (Some "One") (Some "Ann")];
     tracks := [episode "b" 1 "Old B" (Some day2) (Some "http://one/b.mp3") None] |}.

(** Two downloaded episodes and one that is not, all dated. *)
Definition shelf : store :=
  {| casts := [cast 1 "http://one/feed" (Some "One") (Some "Ann")];
     tracks := [episode "a" 1 "First" (Some day1) (Some "http://one/a.mp3")
                  (Some "/d/cast1-a.mp3");
                episode "b" 1 "Second" (Some day2) (Some "http://one/b.mp3")
                  (Some "/d/cast1-b.mp3");
                episode "c" 1 "Third" (Some day1) (Some "http://one/c.mp3") None] |}.


(** A refreshed subscription followed by one that was only added. *)
Definition named_then_added : store :=
  {| casts := [cast 1 "http://one/feed" (Some "One") (Some "Ann");
               cast 3 "http://three/feed" None None];
     tracks := [] |}.

End Examples.

(* ===================================================================== *)
(** ** Notions the statements below are phrased with *)
(* ===================================================================== *)

Definition audio_typed (l : link) : bool :=
  match link_type l with
  | Some t => String.eqb (first_item (split "/" t)) "audio"
  | None => false
  end.

(** The selection as the specification words it: the href of the first
    link whose media type has primary component "audio". *)
Definition spec_source_url (ls : list link) : option string :=
  List.find audio_typed ls ≫= href.

(** The selection the loop makes: the link must also carry an href. *)
Definition audio_with_href (l : link) : bool :=
  audio_typed l && bool_decide (is_Some (href l)).

(** A row agrees with the [fields] of an item: it sits under the item's
    key and holds the value of every key the dictionary carries. *)
Definition carries (f : fields) (r : track_row) : Prop :=
  gid r = f_gid f ∧ podcast r = f_podcast f
  ∧ title r = Some (f_title f) ∧ description r = Some (f_description f)
  ∧ (∀ d, f_published f = Some d → published r = Some d)
  ∧ (∀ u, f_track_url f = Some u → track_url r = Some u).

(** The table [upsertEpisode] leaves, in closed form. *)
Definition stored_after (f : fields) (t : list track_row) : list track_row :=
  match rows_with_key (f_podcast f) (f_gid f) t with
  | [] => t ++ [new_row f]
  | _ => Sql.update (update_values f) (podcast_is (f_podcast f)) t
  end.


(** The objects [Database.list] builds from the rows of [podcasts]. *)
Definition as_podcast (c : cast_row) : Podcast :=
  {| pid := cast_id c; purl := cast_url c;
     name := cast_name c; author := cast_author c |}.

Definition listed (id : option Z) (cs : list cast_row) : list Podcast :=
  as_podcast <$> match id with
                 | None => cs
                 | Some i => List.filter (λ c, cast_id c =? i) cs
                 end.

(** Every row that has a file still sits at its place, under its key, with
    a file. *)
Definition keeps_files (t t' : list track_row) : Prop :=
  ∀ i r, t !! i = Some r → is_Some (track_file r) →
    ∃ r', t' !! i = Some r' ∧ key_of r' = key_of r ∧ is_Some (track_file r').

(** A computation that keeps the files from whatever world it starts in,
    whether it returns or raises. *)
Definition preserving {A} (c : M A) : Prop :=
  ∀ w, keeps_files (tracks (db w)) (tracks (db (fst (c w)))).

(** Lines 169-171: the assignment made after a transfer. *)
Definition file_assignment (file_name : string) : assignments :=
  {| set_title := None; set_description := None; set_published := None;
     set_track_url := None; set_track_file := Some file_name |}.

(** The episodes of a podcast a download has to fetch, in storage order. *)
Definition pending (self_id : Z) (t : list track_row) : list track_row :=
  List.filter (λ r, bool_decide (track_file r = None))
    (Sql.select (podcast_is self_id) t).

(** The curl run a download makes for an episode. *)
Definition curl_event (curl : string → string → Z) (directory : string)
    (self_id : Z) (r : track_row) : event :=
  let file_name := file_name_of directory self_id (gid r) in
  let source := default EmptyString (track_url r) in
  Curl file_name source (curl file_name source).

(** The table a download of the episodes with the given gids leaves. *)
Definition downloaded (directory : string) (self_id : Z) (gids : list string)
    (t : list track_row) : list track_row :=
  (λ r, if bool_decide (gid r ∈ gids)
        then assign (file_assignment (file_name_of directory self_id (gid r))) r
        else r) <$> t.

(** A computation whose runs, returning or raising, relate the store they
    start from to the store they leave. *)
Definition respects (R : store → store → Prop) {A} (c : M A) : Prop :=
  ∀ w, R (db w) (db (fst (c w))).

(** What a refresh of podcast [p] may do to the tracks: every stored row
    keeps its place, key and file, rows of other podcasts are untouched,
    and whatever is added belongs to [p]. *)
Definition refreshed_from (p : Z) (s s' : store) : Prop :=
  (∀ i r, tracks s !! i = Some r →
     ∃ r', tracks s' !! i = Some r' ∧ key_of r' = key_of r
           ∧ track_file r' = track_file r ∧ (podcast r ≠ p → r' = r))
  ∧ (∀ i r', tracks s' !! i = Some r' → (length (tracks s) ≤ i)%nat →
       podcast r' = p).

Definition same_keys (s s' : store) : Prop :=
  key_of <$> tracks s' = key_of <$> tracks s.

Definition keeps_primary_key (s s' : store) : Prop :=
  primary_key_ok (tracks s) → primary_key_ok (tracks s').

Definition same_casts (s s' : store) : Prop := casts s' = casts s.

(** Lines 107-115: the rows of [podcasts] after the name and author of
    podcast [p] were written. *)
Definition renamed (p : Z) (n a : string) (cs : list cast_row) : list cast_row :=
  (λ c, if cast_id c =? p
        then {| cast_id := cast_id c; cast_url := cast_url c;
                cast_name := Some n; cast_author := Some a |}
        else c) <$> cs.

(** Lines 235-245 without a path substitution: the text a track adds to
    the playlist, nothing when it has no file. *)
Definition entry_text (extm3u : bool) (r : track_row) : string :=
  match track_file r with
  | None => EmptyString
  | Some f =>
      (if extm3u
       then "#EXTINF:-1, " +:+ default EmptyString (title r) +:+ newline
       else EmptyString)
      +:+ f +:+ (if extm3u then newline +:+ newline else newline)
  end.

Definition joined (l : list string) : string :=
  foldr String.append EmptyString l.

(** [a] may stand before [b] in a playlist: its date is not the earlier
    one. *)
Definition not_older (a b : track_row) : Prop :=
  ∀ d1 d2, published a = Some d1 → published b = Some d2 →
    date_ltb d1 d2 = false.

(** The order [sort_desc] establishes on rows paired with their dates. *)
Definition later_first (p q : track_row * date) : Prop :=
  date_ltb (snd p) (snd q) = false.

(** Every character of a string passes a test; the ends of a string. *)
Fixpoint all_chars (P : ascii → bool) (s : string) : bool :=
  match s with
  | EmptyString => true
  | String c rest => P c && all_chars P rest
  end.

Definition first_char (s : string) : option ascii :=
  match s with
  | EmptyString => None
  | String c _ => Some c
  end.

Fixpoint last_char (s : string) : option ascii :=
  match s with
  | EmptyString => None
  | String c EmptyString => Some c
  | String _ rest => last_char rest
  end.

Definition no_slash (c : ascii) : bool := negb (Ascii.eqb c "/").

(** The transfers recorded in a trace. *)
Definition is_curl (e : event) : bool :=
  match e with
  | Curl _ _ _ => true
  | _ => false
  end.

Definition curls_of (tr : list event) : list event := List.filter is_curl tr.

(* ===================================================================== *)
(** * Properties *)
(* ===================================================================== *)

(* ===================================================================== *)
(** ** The filters the two UPDATE statements really carry *)
(* ===================================================================== *)

Lemma holds_podcast_is p r : holds (podcast_is p) r = bool_decide (podcast r = p).
Proof.
  unfold holds, podcast_is; simpl.
  apply bool_decide_ext; split; [by intros [= ->] | by intros ->].
Qed.

Lemma holds_gid_is g r : holds (gid_is g) r = bool_decide (gid r = g).
Proof.
  unfold holds, gid_is; simpl.
  apply bool_decide_ext; split; [by intros [= ->] | by intros ->].
Qed.

(** Python's [and] keeps its first operand: the gid is never compared. *)
Lemma refresh_filter_drops_gid p g : refresh_filter p g = podcast_is p.
Proof. reflexivity. Qed.

(** In [download] the operands come in the other order: the podcast is
    never compared. *)
Lemma download_filter_drops_podcast p g : download_filter p g = gid_is g.
Proof. reflexivity. Qed.

(** Whatever the store, the update path rewrites every row of the
    podcast, not only the row of the item. *)
Lemma update_path_rewrites_podcast f self_id t i r :
  t !! i = Some r → podcast r = self_id →
  Sql.update (update_values f) (refresh_filter self_id (f_gid f)) t !! i
  = Some (assign (update_values f) r).
Proof.
  intros Hi Hp. unfold Sql.update.
  rewrite list_lookup_fmap, Hi. simpl.
  by rewrite refresh_filter_drops_gid, holds_podcast_is, bool_decide_eq_true_2.
Qed.

(** C2. The update path of a refresh is meant to touch the one row under
    (podcast, gid).  Refreshing podcast 1 from a feed whose only item is a
    retitled "a" rewrites the title, description, publication date and
    source link of "b" as well: the UPDATE is filtered on the podcast
    alone. *)
Theorem refresh_update_rewrites_sibling_rows :
  tracks (db (fst (Podcast_refresh (Examples.serves Examples.retitled_feed)
                     Examples.podcast_one (Examples.start Examples.two_casts))))
  = [ Examples.episode "a" 1 "New A" (Some Examples.day1)
        (Some "http://one/a.mp3") None;
      Examples.episode "b" 1 "New A" (Some Examples.day1)
        (Some "http://one/a.mp3") None;
      Examples.episode "a" 2 "Other A" (Some Examples.day1)
        (Some "http://two/a.mp3") (Some "/keep/two-a.mp3") ].
Proof. vm_compute. reflexivity. Qed.

(* ===================================================================== *)
(** ** Download file names *)
(* ===================================================================== *)

(** C10. The download file name depends on the gid only through its last
    slash-separated segment, so two distinct gids of one podcast that
    share that segment are given one file: the name is the same for every
    directory and podcast, and a download of a podcast holding both
    episodes records the same path on both rows. *)
Theorem file_name_not_injective :
  (∀ d p g1 g2, last_item (split "/" g1) = last_item (split "/" g2) →
     file_name_of d p g1 = file_name_of d p g2)
  ∧ (∃ g1 g2, g1 ≠ g2 ∧ ∀ d p, file_name_of d p g1 = file_name_of d p g2)
  ∧ (let s := {| casts := [Examples.cast 1 "http://one/feed" None None];
                 tracks := [Examples.episode "http://one/2019/ep1" 1 "First"
                              None (Some "http://one/x.mp3") None;
                            Examples.episode "http://one/2020/ep1" 1 "Second"
                              None (Some "http://one/y.mp3") None] |} in
     track_file <$> tracks (db (fst (Podcast_download Examples.curl_works
                                       Examples.loads Examples.takes
                                       Examples.podcast_one "/d" false
                                       (Examples.start s))))
     = [Some "/d/cast1-ep1.mp3"; Some "/d/cast1-ep1.mp3"]).
Proof.
  split; [|split].
  - intros d p g1 g2 Hlast. unfold file_name_of. by rewrite Hlast.
  - exists "a/x", "b/x". split; [discriminate | reflexivity].
  - vm_compute. reflexivity.
Qed.

Lemma file_name_not_injective_witness :
  last_item (split "/" "a/x") = last_item (split "/" "b/x")
  ∧ file_name_of "/d" 1 "a/x" = file_name_of "/d" 1 "b/x".
Proof.
  split; [reflexivity |].
  apply (proj1 file_name_not_injective "/d" 1 "a/x" "b/x"). reflexivity.
Defined.

(* ===================================================================== *)
(** ** Choosing the source link of an item *)
(* ===================================================================== *)

Lemma scan_links_find ls :
  scan_links ls = List.find audio_with_href ls ≫= href.
Proof.
  induction ls as [|l rest IH]; [reflexivity |].
  simpl. unfold audio_with_href, audio_typed.
  destruct (link_type l) as [t|] eqn:Ht; simpl; [|exact IH].
  destruct (href l) as [h|] eqn:Hh; simpl.
  - destruct (String.eqb _ _); simpl; [by rewrite Hh | exact IH].
  - rewrite andb_false_r. exact IH.
Qed.

Lemma scan_links_spec ls :
  (∀ l, l ∈ ls → audio_typed l = true → is_Some (href l)) →
  scan_links ls = spec_source_url ls.
Proof.
  intros Hall. rewrite scan_links_find. unfold spec_source_url. f_equal.
  induction ls as [|l rest IH]; [reflexivity |].
  simpl. unfold audio_with_href at 1.
  destruct (audio_typed l) eqn:Ha; simpl.
  - rewrite bool_decide_eq_true_2; [done |].
    apply Hall; [left | done].
  - apply IH. intros l' Hin. apply Hall. by right.
Qed.

(* ===================================================================== *)
(** ** Storing one episode *)
(* ===================================================================== *)

Lemma select_podcast_is p t :
  Sql.select (podcast_is p) t = filter (λ r, podcast r = p) t.
Proof.
  unfold Sql.select.
  induction t as [|r t IH]; [reflexivity |].
  simpl. rewrite filter_cons, holds_podcast_is, IH.
  unfold bool_decide. by destruct (decide_rel _ _ _); destruct (decide _).
Qed.

Lemma gid_stored_iff p g t :
  g ∈ existing_gids_of p t ↔ rows_with_key p g t ≠ [].
Proof.
  unfold existing_gids_of, rows_with_key.
  rewrite elem_of_list_to_set, list_elem_of_fmap, select_podcast_is.
  split.
  - intros (r & -> & Hr). apply list_elem_of_filter in Hr as [Hp Hin].
    intros Hnil. assert (r ∈ filter (has_key p (gid r)) t) as Hin'.
    { apply list_elem_of_filter. by split. }
    rewrite Hnil in Hin'. by apply not_elem_of_nil in Hin'.
  - intros Hne. destruct (filter (has_key p g) t) as [|r rs] eqn:Hf; [done |].
    assert (r ∈ filter (has_key p g) t) as Hin by (rewrite Hf; left).
    apply list_elem_of_filter in Hin as [[Hp Hg] Hin].
    exists r. split; [done |]. apply list_elem_of_filter. by split.
Qed.

Lemma rows_with_key_update a p g t :
  rows_with_key p g (Sql.update a (podcast_is p) t)
  = assign a <$> rows_with_key p g t.
Proof.
  unfold rows_with_key, Sql.update.
  induction t as [|r t IH]; [reflexivity |].
  rewrite fmap_cons, !filter_cons, IH, holds_podcast_is.
  destruct (decide (has_key p g r)) as [[Hp Hg]|Hn].
  - rewrite bool_decide_eq_true_2 by done.
    rewrite decide_True; [done |]. by split.
  - case_bool_decide as Hp.
    + rewrite decide_False; [done |]. intros [_ Hg]. apply Hn. by split.
    + by rewrite decide_False.
Qed.

Lemma rows_with_key_insert p g r t :
  rows_with_key p g t = [] → key_of r = (p, g) →
  Sql.insert r t = Returned (t ++ [r]) ∧ rows_with_key p g (t ++ [r]) = [r].
Proof.
  intros Hnil Hk. split.
  - unfold Sql.insert. rewrite bool_decide_eq_false_2; [done |].
    rewrite list_elem_of_fmap. intros (r' & Hk' & Hin).
    assert (r' ∈ rows_with_key p g t) as Hin'.
    { apply list_elem_of_filter. split; [|done].
      rewrite Hk in Hk'. unfold key_of in Hk'. injection Hk' as Hp Hg. by split. }
    rewrite Hnil in Hin'. by apply not_elem_of_nil in Hin'.
  - unfold rows_with_key in *. rewrite filter_app, Hnil. simpl.
    rewrite filter_cons, decide_True; [done |].
    unfold key_of in Hk. injection Hk as Hp Hg. by split.
Qed.

Lemma upsertEpisode_run f w :
  upsertEpisode f w
  = ({| db := {| casts := casts (db w);
                 tracks := stored_after f (tracks (db w)) |};
        trace := trace w |}, Returned tt).
Proof.
  unfold upsertEpisode, insert_or_update_track, stored_after, bind, read_tracks,
    write_tracks, lift.
  case_bool_decide as Hin; rewrite gid_stored_iff in Hin.
  - destruct (rows_with_key _ _ _); [done | reflexivity].
  - assert (rows_with_key (f_podcast f) (f_gid f) (tracks (db w)) = []) as Hnil.
    { destruct (rows_with_key _ _ _); [done |]. by destruct Hin. }
    rewrite Hnil.
    destruct (rows_with_key_insert _ _ (new_row f) _ Hnil eq_refl) as [-> _].
    reflexivity.
Qed.

Lemma keys_update a e t : key_of <$> Sql.update a e t = key_of <$> t.
Proof.
  unfold Sql.update. rewrite <- list_fmap_compose. apply list_fmap_ext.
  intros _ r _. simpl. by destruct (holds e r).
Qed.

Lemma primary_key_single p g t :
  primary_key_ok t → (length (rows_with_key p g t) ≤ 1)%nat.
Proof.
  unfold primary_key_ok, rows_with_key.
  induction t as [|r t IH]; [simpl; lia |].
  rewrite fmap_cons, NoDup_cons. intros [Hnotin Hnd].
  rewrite filter_cons. destruct (decide (has_key p g r)) as [[Hp Hg]|]; [|by apply IH].
  assert (filter (has_key p g) t = []) as ->; [|simpl; lia].
  destruct (filter (has_key p g) t) as [|r' rs] eqn:Hf; [done |].
  assert (r' ∈ filter (has_key p g) t) as Hin by (rewrite Hf; left).
  apply list_elem_of_filter in Hin as [[Hp' Hg'] Hin].
  destruct Hnotin. apply list_elem_of_fmap. exists r'. split; [|done].
  unfold key_of. congruence.
Qed.

Lemma carries_new_row f : carries f (new_row f).
Proof. unfold carries; simpl. naive_solver. Qed.

Lemma carries_assign f r :
  has_key (f_podcast f) (f_gid f) r → carries f (assign (update_values f) r).
Proof.
  intros [Hp Hg]. unfold carries; simpl.
  repeat split; try done.
  - by intros d ->.
  - by intros u ->.
Qed.

Lemma assign_fixes f r : carries f r → assign (update_values f) r = r.
Proof.
  intros (Hg & Hp & Ht & Hd & Hpub & Hurl).
  destruct r as [g p t d pb u fl]; simpl in *. unfold assign; simpl.
  assert (override (f_published f) pb = pb) as ->.
  { destruct (f_published f) as [x|]; [by rewrite (Hpub x) | done]. }
  assert (override (f_track_url f) u = u) as ->.
  { destruct (f_track_url f) as [x|]; [by rewrite (Hurl x) | done]. }
  by rewrite Ht, Hd.
Qed.

Lemma stored_after_rows f t :
  primary_key_ok t →
  ∃ r, rows_with_key (f_podcast f) (f_gid f) (stored_after f t) = [r]
       ∧ carries f r
       ∧ match rows_with_key (f_podcast f) (f_gid f) t with
         | [] => r = new_row f
         | r0 :: _ => r = assign (update_values f) r0
         end.
Proof.
  intros Hpk. pose proof (primary_key_single (f_podcast f) (f_gid f) t Hpk) as Hlen.
  unfold stored_after.
  destruct (rows_with_key (f_podcast f) (f_gid f) t) as [|r0 rs] eqn:Hrows.
  - exists (new_row f).
    destruct (rows_with_key_insert _ _ (new_row f) _ Hrows eq_refl) as [_ ->].
    split; [done |]. split; [apply carries_new_row | done].
  - destruct rs; [|simpl in Hlen; lia].
    exists (assign (update_values f) r0).
    rewrite rows_with_key_update, Hrows. split; [done |]. split; [|done].
    apply carries_assign.
    assert (r0 ∈ rows_with_key (f_podcast f) (f_gid f) t) as Hin by (rewrite Hrows; left).
    by apply list_elem_of_filter in Hin as [? _].
Qed.

Lemma stored_after_primary_key f t :
  primary_key_ok t → primary_key_ok (stored_after f t).
Proof.
  unfold primary_key_ok, stored_after. intros Hnd.
  destruct (rows_with_key (f_podcast f) (f_gid f) t) as [|r0 rs] eqn:Hrows.
  - rewrite fmap_app. apply NoDup_app. split; [done |]. split.
    + intros k Hk Hk'. apply list_elem_of_singleton in Hk'. subst k.
      destruct (rows_with_key_insert _ _ (new_row f) _ Hrows eq_refl) as [Hins _].
      unfold Sql.insert in Hins. by rewrite bool_decide_eq_true_2 in Hins.
    + apply NoDup_singleton.
  - by rewrite keys_update.
Qed.

Lemma stored_after_keys f t :
  rows_with_key (f_podcast f) (f_gid f) t ≠ [] →
  key_of <$> stored_after f t = key_of <$> t.
Proof.
  unfold stored_after. intros Hne.
  destruct (rows_with_key _ _ _); [done | apply keys_update].
Qed.

Lemma track_fields_inv self_id track f :
  track_fields self_id track = Returned f →
  ∃ ls, links track = Some ls
        ∧ item_id track = Some (f_gid f)
        ∧ f_podcast f = self_id
        ∧ f_track_url f = scan_links ls.
Proof.
  unfold track_fields, and_then, getitem.
  destruct (item_id track) as [g|]; [|discriminate].
  destruct (item_title track) as [t|]; [|discriminate].
  destruct (item_description track) as [d|]; [|discriminate].
  destruct (item_published track) as [p|]; [|discriminate].
  destruct (links track) as [ls|]; [|discriminate].
  intros [= <-]. by exists ls.
Qed.


(** A refresh from a feed with a single item writes the tracks exactly as
    [upsertEpisode] does with the fields of that item. *)
Lemma refresh_of_one_item (feedparser_parse : option string → feed) self track f w n a :
  channel_title (feedparser_parse (purl self)) = Some n →
  channel_author (feedparser_parse (purl self)) = Some a →
  items (feedparser_parse (purl self)) = [track] →
  track_fields (pid self) track = Returned f →
  tracks (db (fst (Podcast_refresh feedparser_parse self w)))
  = tracks (db (fst (upsertEpisode f w)))
  ∧ snd (Podcast_refresh feedparser_parse self w)
    = Returned {| pid := pid self; purl := purl self;
                  name := Some n; author := Some a |}.
Proof.
  intros Hn Ha Hitems Hf.
  destruct (track_fields_inv _ _ _ Hf) as (_ & _ & _ & Hp & _).
  rewrite upsertEpisode_run. simpl.
  unfold Podcast_refresh. rewrite Hn, Ha, Hitems. simpl.
  unfold bind, lift, read_casts, write_casts, read_tracks, refresh_track. simpl.
  unfold bind, lift. rewrite Hf.
  pose proof (upsertEpisode_run f
                {| db := {| casts := (λ c, if cast_id c =? pid self
                                           then {| cast_id := cast_id c;
                                                   cast_url := cast_url c;
                                                   cast_name := Some n;
                                                   cast_author := Some a |}
                                           else c) <$> casts (db w);
                            tracks := tracks (db w) |};
                   trace := trace w |}) as Hrun.
  unfold upsertEpisode, bind at 1, read_tracks at 1 in Hrun. simpl in Hrun.
  rewrite Hp in Hrun. rewrite Hrun. simpl. by unfold ret.
Qed.

(** Within one refresh the stored gids are read once, before the loop.  An
    item whose gid was not stored is inserted; a second item of the same
    feed with that gid is then inserted again, which the primary key
    refuses: the refresh raises and the table stays as the first item
    left it. *)
Lemma repeated_item_in_one_feed_raises self_id existing f f' w :
  f_podcast f = self_id → f_podcast f' = self_id → f_gid f' = f_gid f →
  f_gid f ∉ existing →
  rows_with_key self_id (f_gid f) (tracks (db w)) = [] →
  let once := insert_or_update_track self_id existing f w in
  snd once = Returned tt
  ∧ insert_or_update_track self_id existing f' (fst once)
    = (fst once, Raised IntegrityError).
Proof.
  intros Hp Hp' Hg' Hnew Hrows once. subst once.
  unfold insert_or_update_track, bind, read_tracks, write_tracks, lift.
  rewrite Hg', (bool_decide_eq_false_2 _ Hnew).
  destruct (rows_with_key_insert self_id (f_gid f) (new_row f) _ Hrows) as [-> _].
  { unfold key_of; simpl. by rewrite Hp. }
  simpl. split; [done |].
  unfold Sql.insert. rewrite bool_decide_eq_true_2; [done |].
  rewrite fmap_app. apply elem_of_app. right.
  unfold key_of; simpl. rewrite Hp, Hp', Hg'. left.
Qed.

(** What does hold of repeated storing, when each call reads the stored
    gids afresh as each refresh does: under a fixed (podcast, gid) and a
    table that respects its primary key, every call succeeds and leaves
    exactly one row under the key, carrying the fields, and the keys of
    the table stay in place.  Nothing is said here of the rows under other
    keys: the next theorem shows they are rewritten. *)
Lemma upsertEpisode_keeps_one_row_per_key f f' w :
  primary_key_ok (tracks (db w)) →
  f_podcast f' = f_podcast f → f_gid f' = f_gid f →
  let p := f_podcast f in
  let g := f_gid f in
  let once := upsertEpisode f w in
  let twice := upsertEpisode f (fst once) in
  let again := upsertEpisode f' (fst twice) in
  snd once = Returned tt ∧ snd twice = Returned tt ∧ snd again = Returned tt
  ∧ ∃ r,
      rows_with_key p g (tracks (db (fst once))) = [r]
      ∧ rows_with_key p g (tracks (db (fst twice))) = [r]
      ∧ carries f r
      ∧ key_of <$> tracks (db (fst twice)) = key_of <$> tracks (db (fst once))
      ∧ rows_with_key p g (tracks (db (fst again))) = [assign (update_values f') r]
      ∧ carries f' (assign (update_values f') r)
      ∧ key_of <$> tracks (db (fst again)) = key_of <$> tracks (db (fst twice)).
Proof.
  intros Hpk Hp' Hg' p g once twice again.
  subst once twice again. rewrite !upsertEpisode_run. simpl.
  repeat (split; [reflexivity |]).
  set (t := tracks (db w)).
  destruct (stored_after_rows f t Hpk) as (r & Hr1 & Hc & _).
  pose proof (stored_after_primary_key f t Hpk) as Hpk1.
  destruct (stored_after_rows f (stored_after f t) Hpk1) as (r2 & Hr2 & Hc2 & Hsrc).
  fold p g in Hr1, Hr2, Hsrc. rewrite Hr1 in Hsrc. subst r2.
  rewrite (assign_fixes f r Hc) in Hr2.
  pose proof (stored_after_primary_key f _ Hpk1) as Hpk2.
  destruct (stored_after_rows f' (stored_after f (stored_after f t)) Hpk2)
    as (r3 & Hr3 & Hc3 & Hsrc3).
  rewrite Hp', Hg' in Hr3, Hsrc3. fold p g in Hr3, Hsrc3.
  rewrite Hr2 in Hsrc3. subst r3.
  exists r.
  refine (conj Hr1 (conj Hr2 (conj Hc (conj _ (conj Hr3 (conj Hc3 _)))))).
  - apply stored_after_keys. fold p g. by rewrite Hr1.
  - apply stored_after_keys. rewrite Hp', Hg'. fold p g. by rewrite Hr2.
Qed.

Lemma upsertEpisode_keeps_one_row_per_key_example :
  primary_key_ok (tracks (db (Examples.start Examples.two_casts)))
  ∧ ∃ r, rows_with_key 1 "a"
           (tracks (db (fst (upsertEpisode Examples.new_a
                               (fst (upsertEpisode Examples.new_a
                                       (Examples.start Examples.two_casts)))))))
         = [r] ∧ carries Examples.new_a r.
Proof.
  assert (primary_key_ok (tracks (db (Examples.start Examples.two_casts)))) as Hpk.
  { apply (bool_decide_unpack _). vm_compute. exact I. }
  split; [exact Hpk |].
  destruct (upsertEpisode_keeps_one_row_per_key Examples.new_a Examples.newer_a
              (Examples.start Examples.two_casts) Hpk eq_refl eq_refl)
    as (_ & _ & _ & r & _ & Hr & Hc & _).
  exists r. split; [exact Hr | exact Hc].
Defined.

(** C1. Storing the same episode twice is meant to leave the store as the
    first storing left it, with one row holding the fields.  Refreshing
    podcast 1, which holds only "b", twice from the same feed, whose only
    item is "a": the first refresh inserts "a" and leaves "b" alone; the
    second takes the update path, whose UPDATE is filtered on the podcast
    alone, and gives "b" the title, date and link of "a".  The store after
    two identical calls differs from the store after one, and two rows
    hold the fields of the item. *)
Theorem repeated_refresh_rewrites_sibling_episode :
  let feed := Examples.serves Examples.retitled_feed in
  let once := fst (Podcast_refresh feed Examples.podcast_one
                     (Examples.start Examples.one_sibling)) in
  let twice := fst (Podcast_refresh feed Examples.podcast_one once) in
  tracks (db once)
  = [ Examples.episode "b" 1 "Old B" (Some Examples.day2)
        (Some "http://one/b.mp3") None;
      Examples.episode "a" 1 "New A" (Some Examples.day1)
        (Some "http://one/a.mp3") None ]
  ∧ tracks (db twice)
    = [ Examples.episode "b" 1 "New A" (Some Examples.day1)
          (Some "http://one/a.mp3") None;
        Examples.episode "a" 1 "New A" (Some Examples.day1)
          (Some "http://one/a.mp3") None ]
  ∧ tracks (db twice) ≠ tracks (db once).
Proof. vm_compute. split; [reflexivity |]. split; [reflexivity | discriminate]. Qed.

(* ===================================================================== *)
(** ** The stored source link *)
(* ===================================================================== *)





(** An item without link list has no qualifying link, and is not stored:
    the refresh raises at it. *)
Lemma item_without_links_is_not_stored :
  Podcast_refresh
    (Examples.serves
       {| channel_title := Some "One"; channel_author := Some "Ann";
          items := [ {| item_id := Some "n"; item_title := Some "N";
                        item_description := Some "about";
                        published_parsed := None; date_parsed := None;
                        links := None |} ] |})
    Examples.podcast_one (Examples.start Examples.one_cast)
  = ({| db := {| casts := [Examples.cast 1 "http://one/feed" (Some "One")
                             (Some "Ann")];
                 tracks := [] |};
        trace := [] |}, Raised (KeyError "links")).
Proof. reflexivity. Qed.

(* ===================================================================== *)
(** ** Loops that may raise *)
(* ===================================================================== *)

Lemma for_each_app {A} (l1 l2 : list A) (body : A → M unit) w :
  for_each (l1 ++ l2) body w
  = match for_each l1 body w with
    | (w', Returned _) => for_each l2 body w'
    | (w', Raised e) => (w', Raised e)
    end.
Proof.
  revert w. induction l1 as [|x l1 IH]; intros w; [reflexivity |].
  simpl. unfold bind. destruct (body x w) as [w1 [[]|e]]; [apply IH | done].
Qed.

(** A loop stops at the first element whose body raises. *)
Lemma for_each_stops {A} (pre post : list A) (x : A) (body : A → M unit) w w1 w2 e :
  for_each pre body w = (w1, Returned tt) →
  body x w1 = (w2, Raised e) →
  for_each (pre ++ x :: post) body w = (w2, Raised e).
Proof.
  intros Hpre Hx. rewrite for_each_app, Hpre. simpl. unfold bind. by rewrite Hx.
Qed.

Lemma Database_list_run id w :
  Database_list id w = (w, Returned (listed id (casts (db w)))).
Proof. reflexivity. Qed.

(** A podcast that was added and not refreshed is listed without a name. *)
Lemma added_podcast_is_unnamed u w :
  ∃ c, listed None (casts (db (fst (Database_add u w))))
       = listed None (casts (db w)) ++ [c]
       ∧ purl c = Some u ∧ name c = None ∧ author c = None.
Proof.
  eexists. unfold Database_add, bind, read_casts, write_casts, listed. simpl.
  rewrite fmap_app. simpl. by split.
Qed.

(* ===================================================================== *)
(** ** Tagging *)
(* ===================================================================== *)

(** C8. When there is a file to tag (an override path or a stored
    track_file) and the episode has no publication date, tagging that
    episode raises and nothing is saved, whatever the tag library accepts:
    the world, and with it the trace of saved tags, is as before.  Hence a
    tagging that returns after saving had a publication date. *)
Theorem tagging_needs_publication_date
    (EasyID3 : string → bool) (tag_accepts : string → option string → bool)
    self track file_override w :
  is_Some file_override ∨ is_Some (track_file track) →
  published track = None →
  ∃ e, Podcast_update_metadata EasyID3 tag_accepts self (Some track)
         file_override w = (w, Raised e).
Proof.
  intros Hfile Hpub. unfold Podcast_update_metadata, tag_track.
  assert (∃ f, match file_override with
               | Some f => Some f
               | None => track_file track
               end = Some f) as [f ->].
  { destruct file_override as [f|]; [by exists f |].
    destruct Hfile as [[? [=]]|[f ->]]. by exists f. }
  rewrite Hpub. unfold bind, lift, set_tag, lift.
  destruct (EasyID3 f); [|by eexists].
  destruct (tag_accepts "album" (name self)); [|by eexists].
  destruct (tag_accepts "artist" (author self)); [|by eexists].
  destruct (tag_accepts "genre" (Some "Podcast")); [|by eexists].
  destruct (tag_accepts "title" (title track)); by eexists.
Qed.

Lemma tagging_needs_publication_date_witness :
  (is_Some (@None string) ∨ is_Some (track_file Examples.undated))
  ∧ published Examples.undated = None
  ∧ ∃ e, Podcast_update_metadata Examples.loads Examples.takes
           Examples.podcast_one (Some Examples.undated) None
           (Examples.start Examples.two_casts)
         = (Examples.start Examples.two_casts, Raised e).
Proof.
  assert (is_Some (@None string) ∨ is_Some (track_file Examples.undated)) as Hf.
  { right. by eexists. }
  split; [exact Hf |]. split; [reflexivity |].
  apply (tagging_needs_publication_date Examples.loads Examples.takes
           Examples.podcast_one Examples.undated None
           (Examples.start Examples.two_casts) Hf eq_refl).
Defined.

(* ===================================================================== *)
(** ** Playlists *)
(* ===================================================================== *)

Lemma generate_playlists_run
    (feedparser_parse : option string → feed) (curl : string → string → Z)
    (EasyID3 : string → bool) (tag_accepts : string → option string → bool)
    (re_sub : string → string → string → option string)
    directory id refresh_first download_first update_metadata path_subst w w0 :
  before_playlists feedparser_parse curl EasyID3 tag_accepts id refresh_first
    download_first update_metadata w = (w0, Returned tt) →
  Database_generate_playlists feedparser_parse curl EasyID3 tag_accepts re_sub
    directory id refresh_first download_first update_metadata path_subst w
  = for_each (listed id (casts (db w0)))
      (playlist_of re_sub directory (split "^" <$> path_subst)) w0.
Proof.
  intros Hbefore. unfold Database_generate_playlists. unfold bind at 1.
  by rewrite Hbefore.
Qed.

Lemma playlist_of_unnamed re_sub directory path_subst c w :
  name c = None →
  playlist_of re_sub directory path_subst c w = (w, Raised TypeError).
Proof. intros Hname. unfold playlist_of, bind, lift. by rewrite Hname. Qed.

(** C9. Take any choice of flags and let the steps that run before the
    playlists (download, tagging) return.  When the listing then holds a
    podcast whose name is null, the run raises: the world it leaves is the
    one left by the playlists of the podcasts listed before it, so no file
    is written for it nor for any podcast after it, and when those earlier
    playlists went through the error is the TypeError of the substitution
    on the null name. *)
Theorem playlists_abort_on_unnamed_podcast
    (feedparser_parse : option string → feed) (curl : string → string → Z)
    (EasyID3 : string → bool) (tag_accepts : string → option string → bool)
    (re_sub : string → string → string → option string)
    directory id refresh_first download_first update_metadata path_subst
    w w0 pre c post :
  before_playlists feedparser_parse curl EasyID3 tag_accepts id refresh_first
    download_first update_metadata w = (w0, Returned tt) →
  listed id (casts (db w0)) = pre ++ c :: post →
  name c = None →
  let run := Database_generate_playlists feedparser_parse curl EasyID3
               tag_accepts re_sub directory id refresh_first download_first
               update_metadata path_subst w in
  let before := for_each pre (playlist_of re_sub directory
                                (split "^" <$> path_subst)) w0 in
  fst run = fst before
  ∧ is_raised (snd run) = true
  ∧ (snd before = Returned tt → snd run = Raised TypeError).
Proof.
  intros Hbefore Hlist Hname run before. subst run before.
  rewrite (generate_playlists_run _ _ _ _ _ _ _ _ _ _ _ _ _ Hbefore).
  rewrite Hlist, for_each_app.
  destruct (for_each pre _ w0) as [w1 [[]|e]]; simpl.
  - unfold bind. rewrite (playlist_of_unnamed _ _ _ _ _ Hname). done.
  - split; [done |]. split; [done | discriminate].
Qed.

Lemma playlists_abort_on_unnamed_podcast_witness :
  listed None (casts (db (Examples.start Examples.named_then_added)))
  = [Examples.podcast_one]
    ++ {| pid := 3; purl := Some "http://three/feed"; name := None;
          author := None |} :: []
  ∧ snd (Database_generate_playlists (Examples.serves Examples.failed_feed)
           Examples.curl_works Examples.loads Examples.takes Examples.no_regex
           "/out" None false None false None
           (Examples.start Examples.named_then_added))
    = Raised TypeError.
Proof.
  split; [reflexivity |].
  apply (playlists_abort_on_unnamed_podcast (Examples.serves Examples.failed_feed)
           Examples.curl_works Examples.loads Examples.takes Examples.no_regex
           "/out" None false None false None
           (Examples.start Examples.named_then_added)
           (Examples.start Examples.named_then_added)
           [Examples.podcast_one] _ [] eq_refl eq_refl eq_refl).
  reflexivity.
Defined.

Lemma append_empty_r (s : string) : s +:+ EmptyString = s.
Proof.
  induction s as [|c s IH]; [reflexivity |].
  change (String c (s +:+ EmptyString) = String c s). by rewrite IH.
Qed.

Lemma insert_desc_perm x l : insert_desc x l ≡ₚ x :: l.
Proof.
  induction l as [|y l IH]; [reflexivity |].
  simpl. destruct (date_ltb (snd x) (snd y)); [|reflexivity].
  rewrite IH. apply Permutation_swap.
Qed.

Lemma sort_desc_perm l : sort_desc l ≡ₚ l.
Proof.
  induction l as [|x l IH]; [reflexivity |].
  simpl. rewrite insert_desc_perm. by rewrite IH.
Qed.

Lemma with_keys_fst l ks : with_keys l = Some ks → fst <$> ks = l.
Proof.
  revert ks. induction l as [|r l IH]; intros ks; simpl.
  - by intros [= <-].
  - destruct (published r) as [d|]; [|discriminate].
    destruct (with_keys l) as [ks'|]; [|discriminate].
    intros [= <-]. rewrite fmap_cons. simpl. f_equal. by apply IH.
Qed.

Lemma with_keys_total l :
  (∀ r, r ∈ l → is_Some (published r)) → is_Some (with_keys l).
Proof.
  induction l as [|r l IH]; intros Hall; simpl; [by eexists |].
  destruct (Hall r) as [d ->]; [left |].
  destruct IH as [ks ->]; [|by eexists].
  intros r' Hin. apply Hall. by right.
Qed.

(** The sort returns a rearrangement of its input whenever it has at most
    one row to sort or every row has a date. *)
Lemma sorted_by_published_returns l :
  (length l ≤ 1)%nat ∨ (∀ r, r ∈ l → is_Some (published r)) →
  ∃ s, sorted_by_published l = Returned s ∧ s ≡ₚ l.
Proof.
  intros Hok. unfold sorted_by_published.
  destruct l as [|a [|b l]]; [by eexists | by eexists |].
  destruct Hok as [Hlen|Hall]; [simpl in Hlen; lia |].
  destruct (with_keys_total _ Hall) as [ks Hks]. rewrite Hks.
  eexists. split; [reflexivity |].
  rewrite sort_desc_perm. by rewrite (with_keys_fst _ _ Hks).
Qed.

Lemma write_entries_nothing re_sub extm3u path_subst ts :
  (∀ r, r ∈ ts → track_file r = None) →
  write_entries re_sub extm3u path_subst ts = (EmptyString, Returned tt).
Proof.
  induction ts as [|r ts IH]; intros Hall; [reflexivity |].
  simpl. unfold write_entry. rewrite (Hall r) by left.
  rewrite IH; [reflexivity |]. intros r' Hin. apply Hall. by right.
Qed.

(** C6, as stated, fails: with two episodes, none downloaded, and one of
    them undated, the rows are sorted before they are filtered and the
    comparison with the null date raises after the header was written. *)
Lemma playlist_raises_on_undated_episode :
  Podcast_dump_to_m3u Examples.no_regex Examples.podcast_one "/out/One.m3u"
    None true None (Examples.start Examples.undated_pair)
  = ({| db := Examples.undated_pair;
        trace := [FileWritten "/out/One.m3u" ("#EXTM3U" +:+ newline +:+ newline)] |},
     Raised TypeError)
  ∧ Forall (λ r, track_file r = None) (tracks Examples.undated_pair).
Proof. split; [reflexivity |]. repeat constructor. Qed.

(** C6, amended.  For every podcast none of whose episodes is downloaded,
    and which has at most one episode or only dated episodes, writing the
    playlist returns without error and the file holds just the header in
    extended format and nothing in plain format. *)
Theorem playlist_of_undownloaded_podcast
    (re_sub : string → string → string → option string)
    self file extm3u path_subst w :
  let ts := Sql.select (podcast_is (pid self)) (tracks (db w)) in
  (∀ r, r ∈ ts → track_file r = None) →
  (length ts ≤ 1)%nat ∨ (∀ r, r ∈ ts → is_Some (published r)) →
  Podcast_dump_to_m3u re_sub self file None extm3u path_subst w
  = ({| db := db w;
        trace := trace w ++ [FileWritten file
                               (if extm3u then "#EXTM3U" +:+ newline +:+ newline
                                else EmptyString)] |},
     Returned tt).
Proof.
  intros ts Hnone Hok.
  destruct (sorted_by_published_returns ts Hok) as (s & Hs & Hperm).
  unfold Podcast_dump_to_m3u, Podcast_get_tracks, bind, read_tracks, ret.
  fold ts. rewrite Hs.
  rewrite write_entries_nothing.
  - unfold emit, lift. simpl. by rewrite append_empty_r.
  - intros r Hin. apply Hnone. by rewrite <- Hperm.
Qed.

Lemma playlist_of_undownloaded_podcast_witness :
  (∀ r, r ∈ Sql.select (podcast_is 1) (tracks Examples.two_casts) →
        track_file r = None)
  ∧ Podcast_dump_to_m3u Examples.no_regex Examples.podcast_one "/out/One.m3u"
      None false None (Examples.start Examples.two_casts)
    = ({| db := Examples.two_casts;
          trace := [FileWritten "/out/One.m3u" EmptyString] |}, Returned tt).
Proof.
  assert (∀ r, r ∈ Sql.select (podcast_is 1) (tracks Examples.two_casts) →
               track_file r = None) as Hnone.
  { intros r Hin. vm_compute in Hin.
    repeat (apply elem_of_cons in Hin as [-> | Hin]; [reflexivity |]).
    by apply not_elem_of_nil in Hin. }
  split; [exact Hnone |].
  apply (playlist_of_undownloaded_podcast Examples.no_regex Examples.podcast_one
           "/out/One.m3u" false None (Examples.start Examples.two_casts) Hnone).
  right. intros r Hin. vm_compute in Hin.
  repeat (apply elem_of_cons in Hin as [-> | Hin]; [by eexists |]).
  by apply not_elem_of_nil in Hin.
Defined.

(* ===================================================================== *)
(** ** Batch refresh *)
(* ===================================================================== *)

(** A feed that could not be fetched or parsed has no channel title: the
    refresh raises on line 105, before anything is written. *)
Lemma Podcast_refresh_failed_feed (feedparser_parse : option string → feed) c w :
  channel_title (feedparser_parse (purl c)) = None →
  Podcast_refresh feedparser_parse c w = (w, Raised (KeyError "title")).
Proof. intros Hnone. unfold Podcast_refresh, bind, lift. by rewrite Hnone. Qed.

Lemma Database_refresh_run (feedparser_parse : option string → feed) id w :
  Database_refresh feedparser_parse id w
  = for_each (listed id (casts (db w)))
      (λ cast, Podcast_refresh feedparser_parse cast ;;; ret tt) w.
Proof. reflexivity. Qed.

(** C4, as stated, fails: the feed of the first podcast cannot be fetched,
    the feed of the second can.  The batch raises at the first podcast and
    leaves the store as it was, the second podcast still unnamed, although
    a refresh of the second podcast alone names it. *)
Lemma failed_feed_stops_the_batch :
  Database_refresh Examples.first_feed_down None (Examples.start Examples.two_casts)
  = (Examples.start Examples.two_casts, Raised (KeyError "title"))
  ∧ cast_name <$> casts Examples.two_casts = [Some "One"; None]
  ∧ cast_name <$> casts (db (fst (Database_refresh Examples.first_feed_down
                                    (Some 2) (Examples.start Examples.two_casts))))
    = [Some "One"; Some "Two"].
Proof. vm_compute. done. Qed.

(** C4, amended.  A batch refresh runs the listed podcasts in order and a
    feed that cannot be fetched or parsed ends it: the podcasts listed
    before the failing one have been refreshed, and neither it nor any
    podcast listed after it is; the batch raises the KeyError of the
    missing channel title. *)
Theorem batch_refresh_stops_at_failed_feed
    (feedparser_parse : option string → feed) id w pre c post w1 :
  listed id (casts (db w)) = pre ++ c :: post →
  for_each pre (λ cast, Podcast_refresh feedparser_parse cast ;;; ret tt) w
  = (w1, Returned tt) →
  channel_title (feedparser_parse (purl c)) = None →
  Database_refresh feedparser_parse id w = (w1, Raised (KeyError "title")).
Proof.
  intros Hlist Hpre Hfail. rewrite Database_refresh_run, Hlist.
  apply (for_each_stops pre post c _ w w1 w1 _ Hpre).
  unfold bind. by rewrite (Podcast_refresh_failed_feed _ _ _ Hfail).
Qed.

Lemma batch_refresh_stops_at_failed_feed_witness :
  listed None (casts (db (Examples.start Examples.two_casts)))
  = [Examples.podcast_one] ++ Examples.podcast_two :: []
  ∧ channel_title (Examples.second_feed_down (purl Examples.podcast_two)) = None
  ∧ snd (Database_refresh Examples.second_feed_down None
           (Examples.start Examples.two_casts))
    = Raised (KeyError "title").
Proof.
  split; [reflexivity |]. split; [reflexivity |].
  set (body := λ cast, Podcast_refresh Examples.second_feed_down cast ;;; ret tt).
  assert (for_each [Examples.podcast_one] body (Examples.start Examples.two_casts)
          = (fst (for_each [Examples.podcast_one] body
                    (Examples.start Examples.two_casts)), Returned tt)) as Hpre.
  { vm_compute. reflexivity. }
  rewrite (batch_refresh_stops_at_failed_feed Examples.second_feed_down None
             (Examples.start Examples.two_casts) [Examples.podcast_one]
             Examples.podcast_two [] _ eq_refl Hpre eq_refl).
  reflexivity.
Defined.

(* ===================================================================== *)
(** ** A stored file path is never nulled *)
(* ===================================================================== *)

Lemma keeps_files_refl t : keeps_files t t.
Proof. intros i r Hi Hf. by exists r. Qed.

Lemma keeps_files_trans t1 t2 t3 :
  keeps_files t1 t2 → keeps_files t2 t3 → keeps_files t1 t3.
Proof.
  intros H12 H23 i r Hi Hf.
  destruct (H12 i r Hi Hf) as (r2 & Hi2 & Hk2 & Hf2).
  destruct (H23 i r2 Hi2 Hf2) as (r3 & Hi3 & Hk3 & Hf3).
  exists r3. split; [done |]. split; [congruence | done].
Qed.

(** No UPDATE can null a column: an assignment either sets a value or
    leaves the column alone. *)
Lemma keeps_files_update a e t : keeps_files t (Sql.update a e t).
Proof.
  intros i r Hi [f Hf]. unfold Sql.update. rewrite list_lookup_fmap, Hi. simpl.
  eexists. split; [reflexivity |].
  destruct (holds e r); [|by split; [|exists f]].
  split; [reflexivity |]. simpl. rewrite Hf.
  destruct (set_track_file a); by eexists.
Qed.

Lemma keeps_files_append t r : keeps_files t (t ++ [r]).
Proof.
  intros i r0 Hi Hf. exists r0. split; [|done].
  by apply lookup_app_l_Some.
Qed.

Lemma preserving_ret {A} (a : A) : preserving (ret a).
Proof. intros w. apply keeps_files_refl. Qed.

Lemma preserving_lift {A} (o : outcome A) : preserving (lift o).
Proof. intros w. apply keeps_files_refl. Qed.

Lemma preserving_emit e : preserving (emit e).
Proof. intros w. apply keeps_files_refl. Qed.

Lemma preserving_bind {A B} (c : M A) (k : A → M B) :
  preserving c → (∀ a, preserving (k a)) → preserving (bind c k).
Proof.
  intros Hc Hk w. unfold bind. specialize (Hc w).
  destruct (c w) as [w1 [a|e]]; simpl in *; [|done].
  eapply keeps_files_trans; [exact Hc | apply Hk].
Qed.

Lemma preserving_for_each {A} (l : list A) (body : A → M unit) :
  (∀ x, preserving (body x)) → preserving (for_each l body).
Proof.
  intros Hbody. induction l as [|x l IH]; simpl.
  - apply preserving_ret.
  - apply preserving_bind; [apply Hbody | by intros _].
Qed.

Lemma preserving_insert_or_update self_id existing f :
  preserving (insert_or_update_track self_id existing f).
Proof.
  intros w. unfold insert_or_update_track, bind, read_tracks, write_tracks, lift.
  destruct (bool_decide _); simpl; [apply keeps_files_update |].
  unfold Sql.insert. destruct (bool_decide _); simpl.
  - apply keeps_files_refl.
  - apply keeps_files_append.
Qed.

Lemma preserving_refresh_track self_id existing track :
  preserving (refresh_track self_id existing track).
Proof.
  unfold refresh_track. apply preserving_bind; [apply preserving_lift |].
  intros f. apply preserving_insert_or_update.
Qed.

Lemma preserving_Podcast_refresh fp self : preserving (Podcast_refresh fp self).
Proof.
  unfold Podcast_refresh.
  apply preserving_bind; [apply preserving_lift | intros n].
  apply preserving_bind; [apply preserving_lift | intros a].
  apply preserving_bind; [intros w; apply keeps_files_refl | intros cs].
  apply preserving_bind; [intros w; apply keeps_files_refl | intros _].
  apply preserving_bind; [intros w; apply keeps_files_refl | intros t].
  apply preserving_bind; [|intros _; apply preserving_ret].
  apply preserving_for_each. intros x. apply preserving_refresh_track.
Qed.

Lemma preserving_set_tag ta k v : preserving (set_tag ta k v).
Proof. apply preserving_lift. Qed.

Lemma preserving_tag_track E ta self track fo : preserving (tag_track E ta self track fo).
Proof.
  unfold tag_track.
  destruct (match fo with Some f => Some f | None => track_file track end);
    [|apply preserving_ret].
  repeat (apply preserving_bind;
          [first [apply preserving_lift | apply preserving_set_tag] | intros ?]).
  apply preserving_emit.
Qed.

Lemma preserving_get_tracks self : preserving (Podcast_get_tracks self).
Proof. intros w. apply keeps_files_refl. Qed.

Lemma preserving_update_metadata E ta self track fo :
  preserving (Podcast_update_metadata E ta self track fo).
Proof.
  unfold Podcast_update_metadata. destruct track; [apply preserving_tag_track |].
  apply preserving_bind; [apply preserving_get_tracks | intros ts].
  apply preserving_for_each. intros t. apply preserving_tag_track.
Qed.

Lemma preserving_modify {A} (F : list track_row → list track_row) (k : M A) :
  (∀ t, keeps_files t (F t)) → preserving k →
  preserving (t <- read_tracks ;; write_tracks (F t) ;;; k).
Proof.
  intros HF Hk w. unfold bind at 1 2, read_tracks, write_tracks.
  simpl. eapply keeps_files_trans; [apply (HF (tracks (db w))) |].
  apply (Hk {| db := {| casts := casts (db w); tracks := F (tracks (db w)) |};
               trace := trace w |}).
Qed.

Lemma preserving_download_track (curl : string → string → Z) E ta self dir um track :
  preserving (download_track curl E ta self dir um track).
Proof.
  unfold download_track. destruct (track_file track); [apply preserving_ret |].
  apply preserving_bind; [apply preserving_lift | intros u].
  apply preserving_bind; [apply preserving_emit | intros _].
  apply (preserving_modify (Sql.update _ _)); [intros t; apply keeps_files_update |].
  destruct um; [apply preserving_update_metadata | apply preserving_ret].
Qed.

Lemma preserving_Podcast_download curl E ta self dir um :
  preserving (Podcast_download curl E ta self dir um).
Proof.
  unfold Podcast_download.
  apply preserving_bind; [apply preserving_get_tracks | intros ts].
  apply preserving_for_each. intros t. apply preserving_download_track.
Qed.

Lemma preserving_Database_list id : preserving (Database_list id).
Proof. intros w. apply keeps_files_refl. Qed.

Lemma preserving_Database_refresh fp id : preserving (Database_refresh fp id).
Proof.
  unfold Database_refresh.
  apply preserving_bind; [apply preserving_Database_list | intros cs].
  apply preserving_for_each. intros c.
  apply preserving_bind; [apply preserving_Podcast_refresh | intros _; apply preserving_ret].
Qed.

Lemma preserving_Database_download fp curl E ta dir id rf um :
  preserving (Database_download fp curl E ta dir id rf um).
Proof.
  unfold Database_download.
  apply preserving_bind; [apply preserving_Database_list | intros cs].
  apply preserving_for_each. intros c.
  apply preserving_bind; [|intros c'; apply preserving_Podcast_download].
  destruct rf; [apply preserving_Podcast_refresh | apply preserving_ret].
Qed.

Lemma preserving_Database_update_metadata E ta id :
  preserving (Database_update_metadata E ta id).
Proof.
  unfold Database_update_metadata.
  apply preserving_bind; [apply preserving_Database_list | intros cs].
  apply preserving_for_each. intros c. apply preserving_update_metadata.
Qed.

Lemma download_track_skips curl E ta self dir um track w :
  is_Some (track_file track) →
  download_track curl E ta self dir um track w = (w, Returned tt).
Proof. intros [f Hf]. unfold download_track. by rewrite Hf. Qed.

Lemma update_path_leaves_files f e t :
  track_file <$> Sql.update (update_values f) e t = track_file <$> t.
Proof.
  unfold Sql.update. rewrite <- list_fmap_compose. apply list_fmap_ext.
  intros _ r _. simpl. by destruct (holds e r).
Qed.

Lemma preserving_upsertEpisode f : preserving (upsertEpisode f).
Proof.
  intros w. unfold upsertEpisode, bind at 1, read_tracks at 1.
  apply preserving_insert_or_update.
Qed.

Lemma tag_track_leaves_store E ta self track fo w :
  db (fst (tag_track E ta self track fo w)) = db w.
Proof.
  unfold tag_track.
  destruct (match fo with Some f => Some f | None => track_file track end) as [f|];
    [|reflexivity].
  unfold bind, lift, set_tag, lift, emit.
  destruct (E f); [|reflexivity].
  destruct (ta "album" (name self)); [|reflexivity].
  destruct (ta "artist" (author self)); [|reflexivity].
  destruct (ta "genre" (Some "Podcast")); [|reflexivity].
  destruct (ta "title" (title track)); [|reflexivity].
  destruct (published track) as [d|]; [|reflexivity].
  destruct (ta "date" _); reflexivity.
Qed.

Lemma tagging_loop_leaves_store E ta self ts w :
  db (fst (for_each ts (λ t, tag_track E ta self t None) w)) = db w.
Proof.
  revert w. induction ts as [|t ts IH]; intros w; [reflexivity |].
  simpl. unfold bind.
  pose proof (tag_track_leaves_store E ta self t None w) as Ht.
  destruct (tag_track E ta self t None w) as [w1 [[]|e]]; simpl in *.
  - by rewrite IH.
  - done.
Qed.

Lemma update_metadata_leaves_store E ta self track fo w :
  db (fst (Podcast_update_metadata E ta self track fo w)) = db w.
Proof.
  unfold Podcast_update_metadata. destruct track as [t|].
  - apply tag_track_leaves_store.
  - unfold bind at 1, Podcast_get_tracks, bind, read_tracks, ret.
    apply tagging_loop_leaves_store.
Qed.

(** C5. From any world, a refresh, a download and a tag update of a
    podcast, the storing of one episode, and the batch refresh and batch
    download leave every row that had a file in its place, under its key
    and with a file, whether they return or raise; a tag update does not
    write the store at all.  In the download loop an episode with a file
    is passed over with no effect, and the UPDATE of a refresh leaves the
    file column of every row as it was. *)
Theorem local_path_never_cleared
    (feedparser_parse : option string → feed) (curl : string → string → Z)
    (EasyID3 : string → bool) (tag_accepts : string → option string → bool) w :
  (∀ self, keeps_files (tracks (db w))
             (tracks (db (fst (Podcast_refresh feedparser_parse self w)))))
  ∧ (∀ f, keeps_files (tracks (db w)) (tracks (db (fst (upsertEpisode f w)))))
  ∧ (∀ self directory update_metadata,
       keeps_files (tracks (db w))
         (tracks (db (fst (Podcast_download curl EasyID3 tag_accepts self
                             directory update_metadata w)))))
  ∧ (∀ self track file_override,
       db (fst (Podcast_update_metadata EasyID3 tag_accepts self track
                  file_override w)) = db w)
  ∧ (∀ id, keeps_files (tracks (db w))
             (tracks (db (fst (Database_refresh feedparser_parse id w)))))
  ∧ (∀ directory id refresh_first update_metadata,
       keeps_files (tracks (db w))
         (tracks (db (fst (Database_download feedparser_parse curl EasyID3
                             tag_accepts directory id refresh_first
                             update_metadata w)))))
  ∧ (∀ self directory update_metadata track,
       is_Some (track_file track) →
       download_track curl EasyID3 tag_accepts self directory update_metadata
         track w = (w, Returned tt))
  ∧ (∀ f e t, track_file <$> Sql.update (update_values f) e t = track_file <$> t).
Proof.
  split; [intros self; apply preserving_Podcast_refresh |].
  split; [intros f; apply preserving_upsertEpisode |].
  split; [intros self d um; apply preserving_Podcast_download |].
  split; [intros self t fo; apply update_metadata_leaves_store |].
  split; [intros id; apply preserving_Database_refresh |].
  split; [intros d id rf um; apply preserving_Database_download |].
  split; [intros self d um t Hf; by apply download_track_skips |].
  apply update_path_leaves_files.
Qed.

Lemma local_path_never_cleared_witness :
  ∃ r, tracks (db (fst (Podcast_download Examples.curl_fails Examples.loads
                          Examples.takes Examples.podcast_one "/d" true
                          (Examples.start Examples.two_casts)))) !! 2%nat
       = Some r
       ∧ key_of r = (2, "a") ∧ is_Some (track_file r).
Proof.
  destruct (local_path_never_cleared (Examples.serves Examples.failed_feed)
              Examples.curl_fails Examples.loads Examples.takes
              (Examples.start Examples.two_casts))
    as (_ & _ & Hdl & _).
  destruct (Hdl Examples.podcast_one "/d" true 2%nat
              (Examples.episode "a" 2 "Other A" (Some Examples.day1)
                 (Some "http://two/a.mp3") (Some "/keep/two-a.mp3"))
              eq_refl (ex_intro _ "/keep/two-a.mp3" eq_refl))
    as (r & Hr & Hk & Hf).
  exists r. split; [exact Hr |]. split; [exact Hk | exact Hf].
Defined.

(* ===================================================================== *)
(** ** Downloads *)
(* ===================================================================== *)

Lemma downloaded_none directory self_id t : downloaded directory self_id [] t = t.
Proof.
  unfold downloaded. rewrite <- (list_fmap_id t) at 2. apply list_fmap_ext.
  intros _ r _. rewrite bool_decide_eq_false_2; [done |]. apply not_elem_of_nil.
Qed.

Lemma update_one_downloaded directory self_id g t :
  Sql.update (file_assignment (file_name_of directory self_id g)) (gid_is g) t
  = downloaded directory self_id [g] t.
Proof.
  unfold Sql.update, downloaded. apply list_fmap_ext. intros _ r _.
  rewrite holds_gid_is.
  case_bool_decide as Hg; case_bool_decide as Hin.
  - by subst g.
  - destruct Hin. subst g. left.
  - apply list_elem_of_singleton in Hin. by destruct Hg.
  - reflexivity.
Qed.

Lemma downloaded_cons directory self_id g gs t :
  downloaded directory self_id gs (downloaded directory self_id [g] t)
  = downloaded directory self_id (g :: gs) t.
Proof.
  unfold downloaded. rewrite <- list_fmap_compose. apply list_fmap_ext.
  intros _ r _. simpl.
  match goal with
  | |- context [if ?b then assign ?a r else r] => destruct b eqn:Hone
  end; simpl.
  - apply bool_decide_eq_true, list_elem_of_singleton in Hone. subst g.
    rewrite (bool_decide_eq_true_2 (gid r ∈ gid r :: gs)) by left.
    by destruct (bool_decide _).
  - apply bool_decide_eq_false in Hone.
    case_bool_decide as Hrest; case_bool_decide as Hall; try reflexivity.
    + destruct Hall. by right.
    + apply elem_of_cons in Hall as [Hg|Hin]; [|by destruct Hrest].
      destruct Hone. subst g. left.
Qed.

Lemma download_loop (curl : string → string → Z) E ta self directory ts w :
  (∀ r, r ∈ ts → track_file r = None → is_Some (track_url r)) →
  let todo := List.filter (λ r, bool_decide (track_file r = None)) ts in
  for_each ts (download_track curl E ta self directory false) w
  = ({| db := {| casts := casts (db w);
                 tracks := downloaded directory (pid self) (gid <$> todo)
                             (tracks (db w)) |};
        trace := trace w ++ (curl_event curl directory (pid self) <$> todo) |},
     Returned tt).
Proof.
  revert w. induction ts as [|r ts IH]; intros w Hurl; simpl.
  - rewrite downloaded_none, app_nil_r. by destruct w as [[cs t] tr].
  - assert (∀ r', r' ∈ ts → track_file r' = None → is_Some (track_url r')) as Hrest.
    { intros r' Hin. apply Hurl. by right. }
    unfold bind at 1. unfold download_track at 1.
    destruct (track_file r) as [f|] eqn:Hf.
    + simpl. by apply IH.
    + destruct (Hurl r) as [u Hu]; [left | done |].
      rewrite Hu. simpl.
      unfold bind, lift, emit, read_tracks, write_tracks, ret. simpl.
      rewrite (IH _ Hrest). simpl.
      rewrite download_filter_drops_podcast.
      change ({| set_title := None; set_description := None;
                 set_published := None; set_track_url := None;
                 set_track_file := Some (file_name_of directory (pid self) (gid r)) |})
        with (file_assignment (file_name_of directory (pid self) (gid r))).
      rewrite update_one_downloaded, downloaded_cons.
      unfold curl_event at 2. rewrite Hu. simpl. by rewrite <- app_assoc.
Qed.

Lemma pending_elem self_id t r :
  r ∈ pending self_id t ↔ r ∈ t ∧ podcast r = self_id ∧ track_file r = None.
Proof.
  unfold pending, Sql.select.
  rewrite !list_elem_of_In, !filter_In, holds_podcast_is, !bool_decide_eq_true.
  tauto.
Qed.

(** A download without tagging, in closed form. *)
Lemma Podcast_download_run (curl : string → string → Z) E ta self directory w :
  (∀ r, r ∈ pending (pid self) (tracks (db w)) → is_Some (track_url r)) →
  Podcast_download curl E ta self directory false w
  = ({| db := {| casts := casts (db w);
                 tracks := downloaded directory (pid self)
                             (gid <$> pending (pid self) (tracks (db w)))
                             (tracks (db w)) |};
        trace := trace w ++ (curl_event curl directory (pid self)
                               <$> pending (pid self) (tracks (db w))) |},
     Returned tt).
Proof.
  intros Hurl. unfold Podcast_download, Podcast_get_tracks.
  unfold bind at 1 2, read_tracks, ret.
  rewrite download_loop; [reflexivity |].
  intros r Hin Hf. apply Hurl. apply pending_elem.
  unfold Sql.select in Hin.
  apply list_elem_of_In, filter_In in Hin as [Hin Hp].
  rewrite holds_podcast_is, bool_decide_eq_true in Hp.
  split; [by apply list_elem_of_In | done].
Qed.

(** C3, as stated, fails: curl exits with status 22 on both transfers and
    both episodes end with a file path all the same. *)
Lemma failed_transfer_sets_local_path :
  let run := Podcast_download Examples.curl_fails Examples.loads Examples.takes
               Examples.podcast_one "/d" false
               (Examples.start Examples.undated_pair) in
  trace (fst run) = [Curl "/d/cast1-a.mp3" "http://one/a.mp3" 22;
                     Curl "/d/cast1-c.mp3" "http://one/c.mp3" 22]
  ∧ track_file <$> tracks (db (fst run))
    = [Some "/d/cast1-a.mp3"; Some "/d/cast1-c.mp3"]
  ∧ track_file <$> tracks (db (fst run)) ≠ [None; None].
Proof. vm_compute. split; [done |]. split; [done | discriminate]. Qed.

Lemma curls_of_app tr1 tr2 : curls_of (tr1 ++ tr2) = curls_of tr1 ++ curls_of tr2.
Proof. unfold curls_of. apply List.filter_app. Qed.

Lemma tag_track_curls E ta self track fo w :
  curls_of (trace (fst (tag_track E ta self track fo w))) = curls_of (trace w).
Proof.
  unfold tag_track.
  destruct (match fo with Some f => Some f | None => track_file track end) as [f|];
    [|reflexivity].
  unfold bind, lift, set_tag, lift, emit.
  destruct (E f); [|reflexivity].
  destruct (ta "album" (name self)); [|reflexivity].
  destruct (ta "artist" (author self)); [|reflexivity].
  destruct (ta "genre" (Some "Podcast")); [|reflexivity].
  destruct (ta "title" (title track)); [|reflexivity].
  destruct (published track) as [d|]; [|reflexivity].
  destruct (ta "date" _); [|reflexivity].
  simpl. rewrite curls_of_app. simpl. apply app_nil_r.
Qed.

(** One turn of the download loop on an episode that has a source link
    and no file yet: the transfer, the UPDATE, then the tagging if asked. *)
Lemma download_track_run (curl : string → string → Z) E ta self directory um r u w :
  track_file r = None → track_url r = Some u →
  download_track curl E ta self directory um r w
  = (if um
     then tag_track E ta self r (Some (file_name_of directory (pid self) (gid r)))
     else ret tt)
      {| db := {| casts := casts (db w);
                  tracks := downloaded directory (pid self) [gid r]
                              (tracks (db w)) |};
         trace := trace w ++ [curl_event curl directory (pid self) r] |}.
Proof.
  intros Hfile Hu. unfold download_track. rewrite Hfile, Hu.
  unfold bind, lift, emit, read_tracks, write_tracks. simpl.
  rewrite download_filter_drops_podcast.
  change ({| set_title := None; set_description := None;
             set_published := None; set_track_url := None;
             set_track_file := Some (file_name_of directory (pid self) (gid r)) |})
    with (file_assignment (file_name_of directory (pid self) (gid r))).
  rewrite update_one_downloaded. unfold curl_event. rewrite Hu. simpl.
  by destruct um.
Qed.

Lemma download_track_pending (curl : string → string → Z) E ta self directory um r w :
  track_file r = None →
  let run := download_track curl E ta self directory um r w in
  match track_url r with
  | None => run = (w, Raised TypeError)
  | Some u =>
      db (fst run)
      = {| casts := casts (db w);
           tracks := downloaded directory (pid self) [gid r] (tracks (db w)) |}
      ∧ curls_of (trace (fst run))
        = curls_of (trace w) ++ [curl_event curl directory (pid self) r]
      ∧ (um = false → snd run = Returned tt)
  end.
Proof.
  intros Hfile run. subst run.
  destruct (track_url r) as [u|] eqn:Hu.
  - rewrite (download_track_run curl E ta self directory um r u w Hfile Hu).
    destruct um.
    + rewrite tag_track_leaves_store, tag_track_curls. simpl.
      rewrite curls_of_app. split; [done |]. split; [done | discriminate].
    + simpl. rewrite curls_of_app. by repeat split.
  - unfold download_track. by rewrite Hfile, Hu.
Qed.

Lemma download_loop_general (curl : string → string → Z) E ta self directory um ts w :
  let run := for_each ts (download_track curl E ta self directory um) w in
  ∃ fetched rest,
    List.filter (λ r, bool_decide (track_file r = None)) ts = fetched ++ rest
    ∧ db (fst run)
      = {| casts := casts (db w);
           tracks := downloaded directory (pid self) (gid <$> fetched)
                       (tracks (db w)) |}
    ∧ curls_of (trace (fst run))
      = curls_of (trace w) ++ (curl_event curl directory (pid self) <$> fetched)
    ∧ (snd run = Returned tt → rest = [])
    ∧ (um = false →
       (∀ r, r ∈ ts → track_file r = None → is_Some (track_url r)) →
       rest = [] ∧ snd run = Returned tt).
Proof.
  revert w. induction ts as [|r ts IH]; intros w run; subst run.
  - exists [], []. simpl. rewrite downloaded_none, app_nil_r.
    split; [done |]. split; [by destruct w as [[cs t] tr] |]. by repeat split.
  - simpl. destruct (track_file r) as [f|] eqn:Hfile.
    + destruct (IH w) as (fetched & rest & Hsplit & Hdb & Hcurls & Hret & Hall).
      unfold bind. rewrite download_track_skips by (by eexists).
      rewrite bool_decide_eq_false_2 by done.
      exists fetched, rest. split; [done |]. split; [done |]. split; [done |].
      split; [done |]. intros Hum Hurl. apply (Hall Hum).
      intros r' Hin. apply Hurl. by right.
    + rewrite bool_decide_eq_true_2 by done.
      pose proof (download_track_pending curl E ta self directory um r w Hfile)
        as Hstep. simpl in Hstep.
      unfold bind.
      destruct (track_url r) as [u|] eqn:Hu.
      2:{ rewrite Hstep.
          exists [], (r :: List.filter (λ r0, bool_decide (track_file r0 = None)) ts).
          simpl.
          rewrite downloaded_none, app_nil_r.
          split; [done |]. split; [by destruct w as [[cs t] tr] |].
          split; [done |]. split; [discriminate |].
          intros _ Hurl. destruct (Hurl r) as [u Hu']; [left | done |].
          congruence. }
      destruct Hstep as (Hdb1 & Hcurls1 & Hret1).
      destruct (download_track curl E ta self directory um r w) as [w1 [[]|e]];
        simpl in *.
      * destruct (IH w1) as (fetched & rest & Hsplit & Hdb & Hcurls & Hret & Hall).
        exists (r :: fetched), rest. rewrite Hsplit. split; [done |].
        rewrite Hdb, Hdb1. simpl. rewrite downloaded_cons.
        split; [done |]. rewrite Hcurls, Hcurls1, <- app_assoc.
        split; [done |]. split; [done |].
        intros Hum Hurl. apply (Hall Hum). intros r' Hin. apply Hurl. by right.
      * exists [r], (List.filter (λ r0, bool_decide (track_file r0 = None)) ts).
        split; [done |]. split; [done |]. split; [done |].
        split; [discriminate |]. intros Hum _. by specialize (Hret1 Hum).
Qed.

(** C3, amended.  For every store, every behaviour of curl and of the tag
    library, with tagging asked for or not: the pending episodes of the
    podcast split into those for which the transfer was run, in storage
    order, and the rest.  Each of the former has the constructed file name
    as its path after the download, whatever exit status curl gave and
    also when the download raised later.  The rest is empty whenever the
    download returns, and the download returns with nothing left whenever
    tagging is off and every pending episode has a source link: a failed
    transfer never stops the loop. *)
Theorem transfer_status_is_ignored
    (curl : string → string → Z) (EasyID3 : string → bool)
    (tag_accepts : string → option string → bool)
    self directory update_metadata w :
  let run := Podcast_download curl EasyID3 tag_accepts self directory
               update_metadata w in
  ∃ fetched rest,
    pending (pid self) (tracks (db w)) = fetched ++ rest
    ∧ curls_of (trace (fst run))
      = curls_of (trace w) ++ (curl_event curl directory (pid self) <$> fetched)
    ∧ (∀ i r, tracks (db w) !! i = Some r → gid r ∈ gid <$> fetched →
         ∃ r', tracks (db (fst run)) !! i = Some r' ∧ key_of r' = key_of r
               ∧ track_file r'
                 = Some (file_name_of directory (pid self) (gid r)))
    ∧ (snd run = Returned tt → rest = [])
    ∧ (update_metadata = false →
       (∀ r, r ∈ pending (pid self) (tracks (db w)) → is_Some (track_url r)) →
       rest = [] ∧ snd run = Returned tt).
Proof.
  intros run. subst run.
  change (Podcast_download curl EasyID3 tag_accepts self directory
            update_metadata w)
    with (for_each (Sql.select (podcast_is (pid self)) (tracks (db w)))
            (download_track curl EasyID3 tag_accepts self directory
               update_metadata) w).
  destruct (download_loop_general curl EasyID3 tag_accepts self directory
              update_metadata (Sql.select (podcast_is (pid self)) (tracks (db w))) w)
    as (fetched & rest & Hsplit & Hdb & Hcurls & Hret & Hall).
  exists fetched, rest. split; [exact Hsplit |]. split; [exact Hcurls |].
  split; [|split; [exact Hret |]].
  - intros i r Hi Hg. rewrite Hdb. simpl. unfold downloaded.
    rewrite list_lookup_fmap, Hi. simpl. rewrite bool_decide_eq_true_2 by done.
    eexists. by repeat split.
  - intros Hum Hurl. apply (Hall Hum). intros r Hin Hfile. apply Hurl.
    apply pending_elem. unfold Sql.select in Hin.
    apply list_elem_of_In, filter_In in Hin as [Hin Hp].
    rewrite holds_podcast_is, bool_decide_eq_true in Hp.
    split; [by apply list_elem_of_In | done].
Qed.

Lemma transfer_status_is_ignored_witness :
  ∃ fetched rest,
    pending 1 (tracks Examples.undated_pair) = fetched ++ rest
    ∧ curls_of (trace (fst (Podcast_download Examples.curl_fails
                              Examples.refuses Examples.takes
                              Examples.podcast_one "/d" true
                              (Examples.start Examples.undated_pair))))
      = curl_event Examples.curl_fails "/d" 1 <$> fetched.
Proof.
  destruct (transfer_status_is_ignored Examples.curl_fails Examples.refuses
              Examples.takes Examples.podcast_one "/d" true
              (Examples.start Examples.undated_pair))
    as (fetched & rest & Hsplit & Hcurls & _).
  exists fetched, rest. split; [exact Hsplit | exact Hcurls].
Defined.

(** With tagging on, a failing transfer and a file the tag library cannot
    load: the first episode gets its path, the tagging raises, the second
    episode is not reached. *)
Lemma failed_transfer_then_failed_tagging :
  Podcast_download Examples.curl_fails Examples.refuses Examples.takes
    Examples.podcast_one "/d" true (Examples.start Examples.undated_pair)
  = ({| db := {| casts := casts Examples.undated_pair;
                 tracks := [Examples.episode "a" 1 "Dated" (Some Examples.day1)
                              (Some "http://one/a.mp3") (Some "/d/cast1-a.mp3");
                            Examples.episode "c" 1 "Undated" None
                              (Some "http://one/c.mp3") None] |};
        trace := [Curl "/d/cast1-a.mp3" "http://one/a.mp3" 22] |},
     Raised LibraryError).
Proof. reflexivity. Qed.

(* ===================================================================== *)
(** * Further properties of the program *)
(* ===================================================================== *)

Lemma delete_podcast_is id t :
  Sql.delete (podcast_is id) t = filter (λ r, podcast r ≠ id) t.
Proof.
  unfold Sql.delete. induction t as [|r t IH]; [reflexivity |].
  simpl. rewrite filter_cons, holds_podcast_is, IH.
  case_bool_decide as Hp; simpl.
  - by rewrite decide_False by (by intros ?).
  - by rewrite decide_True.
Qed.


Lemma listed_unknown i cs :
  (∀ c, c ∈ cs → cast_id c ≠ i) → listed (Some i) cs = [].
Proof.
  intros Hno. unfold listed.
  assert (List.filter (λ c, cast_id c =? i) cs = []) as ->; [|reflexivity].
  induction cs as [|c cs IH]; [reflexivity |].
  simpl. destruct (Z.eqb_spec (cast_id c) i) as [He|He].
  - destruct (Hno c); [left | done].
  - apply IH. intros c' Hin. apply Hno. by right.
Qed.


(** X2. An id that no podcast carries selects nothing: refresh, download,
    tag update and playlist generation for it return at once, whatever
    their flags, and leave the store and the trace as they were. *)
Theorem unknown_id_does_nothing
    (feedparser_parse : option string → feed) (curl : string → string → Z)
    (EasyID3 : string → bool) (tag_accepts : string → option string → bool)
    (re_sub : string → string → string → option string) i w :
  (∀ c, c ∈ casts (db w) → cast_id c ≠ i) →
  Database_refresh feedparser_parse (Some i) w = (w, Returned tt)
  ∧ (∀ directory refresh_first update_metadata,
       Database_download feedparser_parse curl EasyID3 tag_accepts directory
         (Some i) refresh_first update_metadata w = (w, Returned tt))
  ∧ Database_update_metadata EasyID3 tag_accepts (Some i) w = (w, Returned tt)
  ∧ (∀ directory refresh_first download_first update_metadata path_subst,
       Database_generate_playlists feedparser_parse curl EasyID3 tag_accepts
         re_sub directory (Some i) refresh_first download_first update_metadata
         path_subst w = (w, Returned tt)).
Proof.
  intros Hno. pose proof (listed_unknown i _ Hno) as Hl.
  assert (∀ directory refresh_first update_metadata,
            Database_download feedparser_parse curl EasyID3 tag_accepts directory
              (Some i) refresh_first update_metadata w = (w, Returned tt)) as Hd.
  { intros d rf um. unfold Database_download. unfold bind at 1.
    by rewrite Database_list_run, Hl. }
  assert (Database_update_metadata EasyID3 tag_accepts (Some i) w
          = (w, Returned tt)) as Hu.
  { unfold Database_update_metadata. unfold bind at 1.
    by rewrite Database_list_run, Hl. }
  split; [by rewrite Database_refresh_run, Hl |].
  split; [exact Hd |]. split; [exact Hu |].
  intros d rf df um ps.
  rewrite (generate_playlists_run _ _ _ _ _ _ _ _ _ _ _ w w); [by rewrite Hl |].
  unfold before_playlists. destruct df as [dir|]; [apply Hd |].
  destruct um; [exact Hu | reflexivity].
Qed.

Lemma unknown_id_does_nothing_witness :
  (∀ c, c ∈ casts (db (Examples.start Examples.two_casts)) → cast_id c ≠ 9)
  ∧ Database_refresh (Examples.serves Examples.good_feed) (Some 9)
      (Examples.start Examples.two_casts)
    = (Examples.start Examples.two_casts, Returned tt).
Proof.
  assert (∀ c, c ∈ casts (db (Examples.start Examples.two_casts)) →
               cast_id c ≠ 9) as Hno.
  { intros c Hin. simpl in Hin.
    repeat (apply elem_of_cons in Hin as [-> | Hin]; [discriminate |]).
    by apply not_elem_of_nil in Hin. }
  split; [exact Hno |].
  apply (unknown_id_does_nothing (Examples.serves Examples.good_feed)
           Examples.curl_works Examples.loads Examples.takes Examples.no_regex
           9 (Examples.start Examples.two_casts) Hno).
Defined.

Lemma tagging_loop_without_files E ta self ts w :
  (∀ r, r ∈ ts → track_file r = None) →
  for_each ts (λ t, tag_track E ta self t None) w = (w, Returned tt).
Proof.
  revert w. induction ts as [|r ts IH]; intros w Hall; [reflexivity |].
  simpl. unfold bind. unfold tag_track at 1. rewrite (Hall r) by left.
  simpl. apply IH. intros r' Hin. apply Hall. by right.
Qed.

(** X11. A tag update of a podcast none of whose episodes has a file does
    nothing and returns, even when episodes have no publication date and
    whatever the tag library would answer. *)
Theorem tagging_skips_undownloaded_podcast
    (EasyID3 : string → bool) (tag_accepts : string → option string → bool)
    self w :
  (∀ r, r ∈ tracks (db w) → podcast r = pid self → track_file r = None) →
  Podcast_update_metadata EasyID3 tag_accepts self None None w = (w, Returned tt).
Proof.
  intros Hall. unfold Podcast_update_metadata, Podcast_get_tracks.
  unfold bind at 1 2, read_tracks, ret.
  apply tagging_loop_without_files. intros r Hin.
  unfold Sql.select in Hin. apply list_elem_of_In, filter_In in Hin as [Hin Hp].
  rewrite holds_podcast_is, bool_decide_eq_true in Hp.
  apply Hall; [by apply list_elem_of_In | done].
Qed.

Lemma tagging_skips_undownloaded_podcast_witness :
  (∀ r, r ∈ tracks (db (Examples.start Examples.undated_pair)) →
        podcast r = pid Examples.podcast_one → track_file r = None)
  ∧ Podcast_update_metadata Examples.loads Examples.takes Examples.podcast_one
      None None (Examples.start Examples.undated_pair)
    = (Examples.start Examples.undated_pair, Returned tt).
Proof.
  assert (∀ r, r ∈ tracks (db (Examples.start Examples.undated_pair)) →
               podcast r = pid Examples.podcast_one → track_file r = None) as Hno.
  { intros r Hin _. simpl in Hin.
    repeat (apply elem_of_cons in Hin as [-> | Hin]; [reflexivity |]).
    by apply not_elem_of_nil in Hin. }
  split; [exact Hno |].
  apply (tagging_skips_undownloaded_podcast Examples.loads Examples.takes
           Examples.podcast_one (Examples.start Examples.undated_pair) Hno).
Defined.

Section Respects.
Context (R : store → store → Prop) `{!Reflexive R} `{!Transitive R}.

Lemma respects_ret {A} (a : A) : respects R (ret a).
Proof. intros w. simpl. reflexivity. Qed.

Lemma respects_lift {A} (o : outcome A) : respects R (lift o).
Proof. intros w. simpl. reflexivity. Qed.

Lemma respects_emit e : respects R (emit e).
Proof. intros w. simpl. reflexivity. Qed.

Lemma respects_read_tracks : respects R read_tracks.
Proof. intros w. simpl. reflexivity. Qed.

Lemma respects_read_casts : respects R read_casts.
Proof. intros w. simpl. reflexivity. Qed.

Lemma respects_bind {A B} (c : M A) (k : A → M B) :
  respects R c → (∀ a, respects R (k a)) → respects R (bind c k).
Proof.
  intros Hc Hk w. unfold bind. specialize (Hc w).
  destruct (c w) as [w1 [a|e]]; simpl in *; [|done].
  etrans; [exact Hc | apply Hk].
Qed.

Lemma respects_for_each {A} (l : list A) (body : A → M unit) :
  (∀ x, x ∈ l → respects R (body x)) → respects R (for_each l body).
Proof.
  induction l as [|x l IH]; intros Hbody; simpl.
  - apply respects_ret.
  - apply respects_bind; [apply Hbody; left | intros _].
    apply IH. intros y Hy. apply Hbody. by right.
Qed.

Lemma respects_write_tracks {A} (F : list track_row → list track_row) (k : M A) :
  (∀ cs t, R {| casts := cs; tracks := t |} {| casts := cs; tracks := F t |}) →
  respects R k →
  respects R (t <- read_tracks ;; write_tracks (F t) ;;; k).
Proof.
  intros HF Hk w. unfold bind at 1 2, read_tracks, write_tracks. simpl.
  etrans; [|apply (Hk {| db := {| casts := casts (db w);
                                  tracks := F (tracks (db w)) |};
                         trace := trace w |})].
  simpl. destruct w as [[cs t] tr]. apply HF.
Qed.

Lemma respects_write_casts {A} (F : list cast_row → list cast_row) (k : M A) :
  (∀ cs t, R {| casts := cs; tracks := t |} {| casts := F cs; tracks := t |}) →
  respects R k →
  respects R (cs <- read_casts ;; write_casts (F cs) ;;; k).
Proof.
  intros HF Hk w. unfold bind at 1 2, read_casts, write_casts. simpl.
  etrans; [|apply (Hk {| db := {| casts := F (casts (db w));
                                  tracks := tracks (db w) |};
                         trace := trace w |})].
  simpl. destruct w as [[cs t] tr]. apply HF.
Qed.

End Respects.

#[local] Instance refreshed_from_refl p : Reflexive (refreshed_from p).
Proof.
  intros s. split.
  - intros i r Hi. by exists r.
  - intros i r' Hi Hlen. apply lookup_lt_Some in Hi. lia.
Qed.

#[local] Instance refreshed_from_trans p : Transitive (refreshed_from p).
Proof.
  intros s1 s2 s3 [Hold12 Hnew12] [Hold23 Hnew23]. split.
  - intros i r Hi.
    destruct (Hold12 i r Hi) as (r2 & Hi2 & Hk2 & Hf2 & Hsame2).
    destruct (Hold23 i r2 Hi2) as (r3 & Hi3 & Hk3 & Hf3 & Hsame3).
    exists r3. split; [done |]. split; [congruence |]. split; [congruence |].
    intros Hp. rewrite <- (Hsame2 Hp). apply Hsame3.
    rewrite (Hsame2 Hp). done.
  - intros i r3 Hi3 Hlen.
    destruct (tracks s2 !! i) as [r2|] eqn:Hi2.
    + destruct (Hold23 i r2 Hi2) as (r3' & Hi3' & Hk & _).
      rewrite Hi3 in Hi3'. injection Hi3' as <-.
      assert (podcast r3 = podcast r2) as -> by (unfold key_of in Hk; congruence).
      by apply (Hnew12 i).
    + apply (Hnew23 i); [done |]. by apply lookup_ge_None.
Qed.

#[local] Instance same_keys_refl : Reflexive same_keys.
Proof. intros s. reflexivity. Qed.
#[local] Instance same_keys_trans : Transitive same_keys.
Proof. unfold same_keys. intros s1 s2 s3 H12 H23. congruence. Qed.

#[local] Instance keeps_primary_key_refl : Reflexive keeps_primary_key.
Proof. intros s Hpk. exact Hpk. Qed.
#[local] Instance keeps_primary_key_trans : Transitive keeps_primary_key.
Proof. unfold keeps_primary_key. intros s1 s2 s3 H12 H23. auto. Qed.

#[local] Instance same_casts_refl : Reflexive same_casts.
Proof. intros s. reflexivity. Qed.
#[local] Instance same_casts_trans : Transitive same_casts.
Proof. unfold same_casts. intros s1 s2 s3 H12 H23. congruence. Qed.

(** The three things the storing of one item can do to the table. *)
Lemma insert_or_update_cases self_id existing f w :
  let s' := db (fst (insert_or_update_track self_id existing f w)) in
  casts s' = casts (db w)
  ∧ ((f_gid f ∈ existing
      ∧ tracks s' = Sql.update (update_values f) (podcast_is self_id)
                      (tracks (db w)))
     ∨ (¬ (key_of (new_row f) ∈ key_of <$> tracks (db w))
        ∧ tracks s' = tracks (db w) ++ [new_row f])
     ∨ tracks s' = tracks (db w)).
Proof.
  unfold insert_or_update_track, bind, read_tracks, write_tracks, lift.
  case_bool_decide as Hin; simpl.
  - split; [done |]. left. by rewrite refresh_filter_drops_gid.
  - unfold Sql.insert. case_bool_decide as Hkey; simpl.
    + split; [done |]. by right; right.
    + split; [done |]. right; left. by split.
Qed.

Lemma refreshed_from_update p f cs t :
  refreshed_from p {| casts := cs; tracks := t |}
    {| casts := cs; tracks := Sql.update (update_values f) (podcast_is p) t |}.
Proof.
  split; simpl.
  - intros i r Hi. unfold Sql.update. rewrite list_lookup_fmap, Hi. simpl.
    eexists. split; [reflexivity |]. rewrite holds_podcast_is.
    case_bool_decide as Hp; [|done].
    split; [done |]. split; [done |]. by intros Hne.
  - intros i r' Hi Hlen. apply lookup_lt_Some in Hi.
    unfold Sql.update in Hi. rewrite length_fmap in Hi. lia.
Qed.

Lemma refreshed_from_append p r cs t :
  podcast r = p →
  refreshed_from p {| casts := cs; tracks := t |}
    {| casts := cs; tracks := t ++ [r] |}.
Proof.
  intros Hp. split; simpl.
  - intros i r0 Hi. exists r0. split; [|done]. by apply lookup_app_l_Some.
  - intros i r' Hi Hlen. rewrite lookup_app_r in Hi by done.
    apply list_lookup_singleton_Some in Hi as [_ <-]. done.
Qed.

Lemma respects_refresh_track_from p existing track :
  respects (refreshed_from p) (refresh_track p existing track).
Proof.
  intros w. unfold refresh_track, bind at 1, lift at 1.
  destruct (track_fields p track) as [f|e] eqn:Hf; [|simpl; reflexivity].
  destruct (track_fields_inv _ _ _ Hf) as (_ & _ & _ & Hp & _).
  destruct (insert_or_update_cases p existing f w) as [Hc [[_ Ht]|[[_ Ht]|Ht]]].
  - destruct (db (fst _)) as [cs' t']; destruct w as [[cs t] tr]; simpl in *.
    subst. apply refreshed_from_update.
  - destruct (db (fst _)) as [cs' t']; destruct w as [[cs t] tr]; simpl in *.
    subst. by apply refreshed_from_append.
  - destruct (db (fst _)) as [cs' t']; destruct w as [[cs t] tr]; simpl in *.
    subst. reflexivity.
Qed.

Lemma refreshed_from_casts p F cs t :
  refreshed_from p {| casts := cs; tracks := t |} {| casts := F cs; tracks := t |}.
Proof.
  split; simpl.
  - intros i r Hi. by exists r.
  - intros i r' Hi Hlen. apply lookup_lt_Some in Hi. lia.
Qed.

(** X3. A refresh, returning or raising, removes no stored episode: every
    row keeps its place, its key and its file path; rows of other
    podcasts are exactly as before; and every row added belongs to the
    refreshed podcast. *)
Theorem refresh_never_prunes (feedparser_parse : option string → feed) self w :
  refreshed_from (pid self) (db w) (db (fst (Podcast_refresh feedparser_parse self w))).
Proof.
  revert w. change (respects (refreshed_from (pid self))
                      (Podcast_refresh feedparser_parse self)).
  unfold Podcast_refresh.
  apply respects_bind; [apply _ | apply respects_lift; apply _ | intros n].
  apply respects_bind; [apply _ | apply respects_lift; apply _ | intros a].
  apply (respects_write_casts _ (renamed (pid self) n a)).
  { intros cs t. apply refreshed_from_casts. }
  apply respects_bind; [apply _ | apply respects_read_tracks; apply _ | intros t].
  apply respects_bind; [apply _ | | intros _; apply respects_ret; apply _].
  apply respects_for_each; [apply _ | apply _ |].
  intros x _. apply respects_refresh_track_from.
Qed.

(** Primary key *)
Lemma keeps_primary_key_refresh_track p existing track :
  respects keeps_primary_key (refresh_track p existing track).
Proof.
  intros w Hpk. unfold refresh_track, bind at 1, lift at 1.
  destruct (track_fields p track) as [f|e]; [|exact Hpk].
  destruct (insert_or_update_cases p existing f w) as [_ [[_ Ht]|[[Hnew Ht]|Ht]]];
    rewrite Ht; unfold primary_key_ok in *.
  - by rewrite keys_update.
  - rewrite fmap_app. apply NoDup_app. split; [done |]. split.
    + intros k Hk Hk'. apply list_elem_of_singleton in Hk'. by subst k.
    + apply NoDup_singleton.
  - done.
Qed.

Lemma keeps_primary_key_casts F cs t :
  keeps_primary_key {| casts := cs; tracks := t |} {| casts := F cs; tracks := t |}.
Proof. by intros Hpk. Qed.

Lemma keeps_primary_key_Podcast_refresh (feedparser_parse : option string → feed) self :
  respects keeps_primary_key (Podcast_refresh feedparser_parse self).
Proof.
  unfold Podcast_refresh.
  apply respects_bind; [apply _ | apply respects_lift; apply _ | intros n].
  apply respects_bind; [apply _ | apply respects_lift; apply _ | intros a].
  apply (respects_write_casts _ (renamed (pid self) n a)).
  { intros cs t. apply keeps_primary_key_casts. }
  apply respects_bind; [apply _ | apply respects_read_tracks; apply _ | intros t].
  apply respects_bind; [apply _ | | intros _; apply respects_ret; apply _].
  apply respects_for_each; [apply _ | apply _ |].
  intros x _. apply keeps_primary_key_refresh_track.
Qed.

Lemma keeps_primary_key_update a e cs t :
  keeps_primary_key {| casts := cs; tracks := t |}
    {| casts := cs; tracks := Sql.update a e t |}.
Proof. unfold keeps_primary_key, primary_key_ok. simpl. by rewrite keys_update. Qed.

Lemma keeps_primary_key_tag_track E ta self track fo :
  respects keeps_primary_key (tag_track E ta self track fo).
Proof. intros w. by rewrite tag_track_leaves_store. Qed.

Lemma keeps_primary_key_update_metadata E ta self track fo :
  respects keeps_primary_key (Podcast_update_metadata E ta self track fo).
Proof. intros w. by rewrite update_metadata_leaves_store. Qed.

Lemma keeps_primary_key_download_track (curl : string → string → Z) E ta self dir um track :
  respects keeps_primary_key (download_track curl E ta self dir um track).
Proof.
  unfold download_track.
  destruct (track_file track); [apply respects_ret; apply _ |].
  apply respects_bind; [apply _ | apply respects_lift; apply _ | intros u].
  apply respects_bind; [apply _ | apply respects_emit; apply _ | intros _].
  apply (respects_write_tracks _ (Sql.update _ _)).
  { intros cs t. apply keeps_primary_key_update. }
  destruct um; [apply keeps_primary_key_update_metadata | apply respects_ret; apply _].
Qed.

Lemma keeps_primary_key_Podcast_download (curl : string → string → Z) E ta self dir um :
  respects keeps_primary_key (Podcast_download curl E ta self dir um).
Proof.
  unfold Podcast_download, Podcast_get_tracks.
  apply respects_bind; [apply _ | | intros ts].
  { intros w. simpl. reflexivity. }
  apply respects_for_each; [apply _ | apply _ |].
  intros x _. apply keeps_primary_key_download_track.
Qed.

Lemma primary_key_filter (P : track_row → Prop) `{∀ r, Decision (P r)} t :
  primary_key_ok t → primary_key_ok (filter P t).
Proof.
  unfold primary_key_ok. intros Hnd.
  apply (sublist_NoDup _ _ Hnd). apply fmap_sublist, sublist_filter.
Qed.

Lemma keeps_primary_key_Database_list {A} id (k : list Podcast → M A) :
  (∀ cs, respects keeps_primary_key (k cs)) →
  respects keeps_primary_key (cs <- Database_list id ;; k cs).
Proof.
  intros Hk w. unfold bind at 1. rewrite Database_list_run. apply Hk.
Qed.

(** X7. Once no two rows share (podcast, gid), no operation breaks it:
    refresh and download of a podcast, the batch refresh and download,
    delete and add all leave a table whose keys are pairwise distinct,
    whether they return or raise. *)
Theorem primary_key_is_kept
    (feedparser_parse : option string → feed) (curl : string → string → Z)
    (EasyID3 : string → bool) (tag_accepts : string → option string → bool) w :
  primary_key_ok (tracks (db w)) →
  (∀ self, primary_key_ok
             (tracks (db (fst (Podcast_refresh feedparser_parse self w)))))
  ∧ (∀ self directory update_metadata,
       primary_key_ok
         (tracks (db (fst (Podcast_download curl EasyID3 tag_accepts self
                             directory update_metadata w)))))
  ∧ (∀ id, primary_key_ok
             (tracks (db (fst (Database_refresh feedparser_parse id w)))))
  ∧ (∀ directory id refresh_first update_metadata,
       primary_key_ok
         (tracks (db (fst (Database_download feedparser_parse curl EasyID3
                             tag_accepts directory id refresh_first
                             update_metadata w)))))
  ∧ (∀ id, primary_key_ok (tracks (db (fst (Database_delete id w)))))
  ∧ (∀ u, primary_key_ok (tracks (db (fst (Database_add u w))))).
Proof.
  intros Hpk.
  split; [intros self; by apply keeps_primary_key_Podcast_refresh |].
  split; [intros self d um; by apply keeps_primary_key_Podcast_download |].
  split.
  { intros id. revert Hpk. apply keeps_primary_key_Database_list. intros cs.
    apply respects_for_each; [apply _ | apply _ |]. intros c _.
    apply respects_bind; [apply _ | apply keeps_primary_key_Podcast_refresh |].
    intros _. apply respects_ret. apply _. }
  split.
  { intros d id rf um. revert Hpk. apply keeps_primary_key_Database_list.
    intros cs. apply respects_for_each; [apply _ | apply _ |]. intros c _.
    apply respects_bind; [apply _ | |].
    - destruct rf; [apply keeps_primary_key_Podcast_refresh |].
      apply respects_ret. apply _.
    - intros c'. apply keeps_primary_key_Podcast_download. }
  split.
  { intros id. unfold Database_delete, bind, read_tracks, write_tracks,
      read_casts, write_casts. simpl.
    rewrite delete_podcast_is. by apply primary_key_filter. }
  intros u. exact Hpk.
Qed.

Lemma primary_key_is_kept_witness :
  primary_key_ok (tracks (db (Examples.start Examples.two_casts)))
  ∧ primary_key_ok
      (tracks (db (fst (Podcast_refresh (Examples.serves Examples.broken_feed)
                          Examples.podcast_one
                          (Examples.start Examples.two_casts))))).
Proof.
  assert (primary_key_ok (tracks (db (Examples.start Examples.two_casts)))) as Hpk.
  { apply (bool_decide_unpack _). vm_compute. exact I. }
  split; [exact Hpk |].
  apply (primary_key_is_kept (Examples.serves Examples.broken_feed)
           Examples.curl_works Examples.loads Examples.takes
           (Examples.start Examples.two_casts) Hpk).
Defined.

(** A refresh whose feed has a channel title and author, after lines
    102-122: the name and author are written, then the items are stored. *)
Lemma Podcast_refresh_run (feedparser_parse : option string → feed) self w n a :
  channel_title (feedparser_parse (purl self)) = Some n →
  channel_author (feedparser_parse (purl self)) = Some a →
  Podcast_refresh feedparser_parse self w
  = (for_each (items (feedparser_parse (purl self)))
       (refresh_track (pid self) (existing_gids_of (pid self) (tracks (db w)))) ;;;
     ret {| pid := pid self; purl := purl self; name := Some n; author := Some a |})
      {| db := {| casts := renamed (pid self) n a (casts (db w));
                  tracks := tracks (db w) |};
         trace := trace w |}.
Proof. intros Hn Ha. unfold Podcast_refresh. by rewrite Hn, Ha. Qed.

Lemma same_casts_refresh_track p existing track :
  respects same_casts (refresh_track p existing track).
Proof.
  intros w. unfold refresh_track, bind at 1, lift at 1.
  destruct (track_fields p track) as [f|e]; [|reflexivity].
  by destruct (insert_or_update_cases p existing f w) as [Hc _].
Qed.

(** X5. When the feed has a channel title and author, a refresh leaves them
    as name and author of the podcast's row, other rows of [podcasts]
    untouched, also when storing an item raises afterwards: nothing is
    rolled back. *)
Theorem refresh_saves_name_and_author
    (feedparser_parse : option string → feed) self w n a :
  channel_title (feedparser_parse (purl self)) = Some n →
  channel_author (feedparser_parse (purl self)) = Some a →
  casts (db (fst (Podcast_refresh feedparser_parse self w)))
  = renamed (pid self) n a (casts (db w)).
Proof.
  intros Hn Ha. rewrite (Podcast_refresh_run _ _ _ _ _ Hn Ha).
  assert (respects same_casts
            (for_each (items (feedparser_parse (purl self)))
               (refresh_track (pid self)
                  (existing_gids_of (pid self) (tracks (db w)))) ;;;
             ret {| pid := pid self; purl := purl self;
                    name := Some n; author := Some a |})) as Hloop.
  { apply respects_bind; [apply _ | | intros _; apply respects_ret; apply _].
    apply respects_for_each; [apply _ | apply _ |].
    intros x _. apply same_casts_refresh_track. }
  exact (Hloop {| db := {| casts := renamed (pid self) n a (casts (db w));
                           tracks := tracks (db w) |};
                  trace := trace w |}).
Qed.

Lemma refresh_saves_name_and_author_witness :
  channel_title (Examples.serves Examples.broken_feed
                   (purl Examples.podcast_two)) = Some "One"
  ∧ cast_name <$> casts (db (fst (Podcast_refresh
                                    (Examples.serves Examples.broken_feed)
                                    Examples.podcast_two
                                    (Examples.start Examples.two_casts))))
    = [Some "One"; Some "One"].
Proof.
  split; [reflexivity |].
  by rewrite (refresh_saves_name_and_author (Examples.serves Examples.broken_feed)
                Examples.podcast_two (Examples.start Examples.two_casts)
                "One" "Ann" eq_refl eq_refl).
Defined.

Lemma same_keys_refresh_track p existing track :
  (∀ g, item_id track = Some g → g ∈ existing) →
  respects same_keys (refresh_track p existing track).
Proof.
  intros Hknown w. unfold refresh_track, bind at 1, lift at 1.
  destruct (track_fields p track) as [f|e] eqn:Hf; [|reflexivity].
  destruct (track_fields_inv _ _ _ Hf) as (_ & _ & Hid & _ & _).
  unfold insert_or_update_track, bind, read_tracks, write_tracks.
  rewrite bool_decide_eq_true_2 by (by apply Hknown).
  unfold same_keys. simpl. apply keys_update.
Qed.

(** X4. When every item of the feed that has an id is already stored for
    the podcast, a refresh leaves the keys of the table as they were, row
    by row: no episode is added, whatever the outcome. *)
Theorem refresh_without_new_items (feedparser_parse : option string → feed) self w :
  (∀ track g, track ∈ items (feedparser_parse (purl self)) →
     item_id track = Some g →
     rows_with_key (pid self) g (tracks (db w)) ≠ []) →
  key_of <$> tracks (db (fst (Podcast_refresh feedparser_parse self w)))
  = key_of <$> tracks (db w).
Proof.
  intros Hknown.
  destruct (channel_title (feedparser_parse (purl self))) as [n|] eqn:Hn;
    [|by rewrite Podcast_refresh_failed_feed].
  destruct (channel_author (feedparser_parse (purl self))) as [a|] eqn:Ha.
  2:{ unfold Podcast_refresh, bind, lift. by rewrite Hn, Ha. }
  rewrite (Podcast_refresh_run _ _ _ _ _ Hn Ha).
  assert (respects same_keys
            (for_each (items (feedparser_parse (purl self)))
               (refresh_track (pid self)
                  (existing_gids_of (pid self) (tracks (db w)))) ;;;
             ret {| pid := pid self; purl := purl self;
                    name := Some n; author := Some a |})) as Hloop.
  { apply respects_bind; [apply _ | | intros _; apply respects_ret; apply _].
    apply respects_for_each; [apply _ | apply _ |].
    intros x Hx. apply same_keys_refresh_track. intros g Hg.
    apply gid_stored_iff. by apply (Hknown x). }
  exact (Hloop {| db := {| casts := renamed (pid self) n a (casts (db w));
                           tracks := tracks (db w) |};
                  trace := trace w |}).
Qed.

Lemma refresh_without_new_items_witness :
  (∀ track g,
     track ∈ items (Examples.serves Examples.retitled_feed
                      (purl Examples.podcast_one)) →
     item_id track = Some g →
     rows_with_key (pid Examples.podcast_one) g
       (tracks (db (Examples.start Examples.two_casts))) ≠ [])
  ∧ key_of <$> tracks (db (fst (Podcast_refresh
                                  (Examples.serves Examples.retitled_feed)
                                  Examples.podcast_one
                                  (Examples.start Examples.two_casts))))
    = [(1, "a"); (1, "b"); (2, "a")].
Proof.
  assert (∀ track g,
            track ∈ items (Examples.serves Examples.retitled_feed
                             (purl Examples.podcast_one)) →
            item_id track = Some g →
            rows_with_key (pid Examples.podcast_one) g
              (tracks (db (Examples.start Examples.two_casts))) ≠ []) as Hknown.
  { intros track g Hin Hg. simpl in Hin.
    apply list_elem_of_singleton in Hin. subst track.
    injection Hg as <-. discriminate. }
  split; [exact Hknown |].
  by rewrite (refresh_without_new_items (Examples.serves Examples.retitled_feed)
                Examples.podcast_one (Examples.start Examples.two_casts) Hknown).
Defined.

(** The date is converted before the link list is read: an item with a
    date key holding [None] and no link list raises the TypeError. *)
Lemma item_with_unparsed_date_raises :
  track_fields 1 {| item_id := Some "n"; item_title := Some "N";
                    item_description := Some "about";
                    published_parsed := Some None; date_parsed := None;
                    links := None |}
  = Raised TypeError.
Proof. reflexivity. Qed.



(** X8. When every episode to fetch has a source link and tagging is not
    asked for, a download leaves [podcasts] alone and keeps every row of
    [tracks] in place with its gid, podcast, title, description, date and
    source link.  Only the file path can change: it becomes the
    constructed name on every row, of whatever podcast, whose gid is that
    of an episode fetched for this podcast, and stays as it was on all
    others. *)
Theorem download_changes_only_paths
    (curl : string → string → Z) (EasyID3 : string → bool)
    (tag_accepts : string → option string → bool) self directory w :
  let todo := pending (pid self) (tracks (db w)) in
  (∀ r, r ∈ todo → is_Some (track_url r)) →
  let s' := db (fst (Podcast_download curl EasyID3 tag_accepts self directory
                       false w)) in
  casts s' = casts (db w)
  ∧ length (tracks s') = length (tracks (db w))
  ∧ ∀ i r, tracks (db w) !! i = Some r →
      ∃ r', tracks s' !! i = Some r'
        ∧ gid r' = gid r ∧ podcast r' = podcast r ∧ title r' = title r
        ∧ description r' = description r ∧ published r' = published r
        ∧ track_url r' = track_url r
        ∧ track_file r'
          = if bool_decide (gid r ∈ gid <$> todo)
            then Some (file_name_of directory (pid self) (gid r))
            else track_file r.
Proof.
  intros todo Hurl s'. subst s'.
  rewrite (Podcast_download_run curl EasyID3 tag_accepts self directory w Hurl).
  fold todo. simpl. split; [done |]. unfold downloaded.
  split; [by rewrite length_fmap |].
  intros i r Hi. rewrite list_lookup_fmap, Hi. simpl.
  eexists. split; [reflexivity |].
  by destruct (bool_decide (gid r ∈ gid <$> todo)).
Qed.

Lemma download_changes_only_paths_witness :
  (∀ r, r ∈ pending (pid Examples.podcast_one)
                 (tracks (db (Examples.start Examples.undated_pair))) →
        is_Some (track_url r))
  ∧ casts (db (fst (Podcast_download Examples.curl_works Examples.loads
                      Examples.takes Examples.podcast_one "/d" false
                      (Examples.start Examples.undated_pair))))
    = casts Examples.undated_pair.
Proof.
  assert (∀ r, r ∈ pending (pid Examples.podcast_one)
                 (tracks (db (Examples.start Examples.undated_pair))) →
        is_Some (track_url r)) as Hurl.
  { intros r Hin. vm_compute in Hin.
    repeat (apply elem_of_cons in Hin as [-> | Hin]; [by eexists |]).
    by apply not_elem_of_nil in Hin. }
  split; [exact Hurl |].
  apply (download_changes_only_paths Examples.curl_works Examples.loads
           Examples.takes Examples.podcast_one "/d"
           (Examples.start Examples.undated_pair) Hurl).
Defined.

Lemma pending_after_download directory self_id t :
  pending self_id
    (downloaded directory self_id (gid <$> pending self_id t) t) = [].
Proof.
  destruct (pending self_id (downloaded _ _ _ t)) as [|r' rest] eqn:Hp; [done |].
  assert (r' ∈ pending self_id
                 (downloaded directory self_id (gid <$> pending self_id t) t))
    as Hin by (rewrite Hp; left).
  apply pending_elem in Hin as (Hin & Hpod & Hfile).
  unfold downloaded in Hin. apply list_elem_of_fmap in Hin as (r & -> & Hr).
  case_bool_decide as Hg; [discriminate |].
  destruct Hg. apply list_elem_of_fmap. exists r. split; [done |].
  by apply pending_elem.
Qed.

(** X9. After such a download the podcast has no episode left to fetch,
    and downloading it again, to any directory and with or without
    tagging, runs no transfer and changes nothing. *)
Theorem second_download_does_nothing
    (curl : string → string → Z) (EasyID3 : string → bool)
    (tag_accepts : string → option string → bool) self directory directory' w :
  (∀ r, r ∈ pending (pid self) (tracks (db w)) → is_Some (track_url r)) →
  let w1 := fst (Podcast_download curl EasyID3 tag_accepts self directory
                   false w) in
  pending (pid self) (tracks (db w1)) = []
  ∧ ∀ update_metadata,
      Podcast_download curl EasyID3 tag_accepts self directory'
        update_metadata w1 = (w1, Returned tt).
Proof.
  intros Hurl w1. subst w1.
  rewrite (Podcast_download_run curl EasyID3 tag_accepts self directory w Hurl).
  simpl. pose proof (pending_after_download directory (pid self) (tracks (db w)))
    as Hnone.
  split; [exact Hnone |]. intros um.
  unfold Podcast_download, Podcast_get_tracks. unfold bind at 1 2, read_tracks, ret.
  simpl.
  set (t1 := downloaded directory (pid self) _ (tracks (db w))) in *.
  assert (∀ r, r ∈ Sql.select (podcast_is (pid self)) t1 → is_Some (track_file r))
    as Hall.
  { intros r Hin. destruct (track_file r) as [f|] eqn:Hf; [by eexists |].
    assert (r ∈ pending (pid self) t1) as Hp.
    { unfold pending. apply list_elem_of_In, filter_In. split.
      - by apply list_elem_of_In.
      - by apply bool_decide_eq_true. }
    rewrite Hnone in Hp. by apply not_elem_of_nil in Hp. }
  revert Hall. generalize (Sql.select (podcast_is (pid self)) t1).
  generalize ({| db := {| casts := casts (db w); tracks := t1 |};
                 trace := trace w ++ (curl_event curl directory (pid self)
                                        <$> pending (pid self) (tracks (db w))) |}).
  intros w1 ts. induction ts as [|r ts IH]; intros Hall; [reflexivity |].
  simpl. unfold bind.
  rewrite download_track_skips by (apply Hall; left).
  apply IH. intros r' Hin. apply Hall. by right.
Qed.

Lemma second_download_does_nothing_witness :
  (∀ r, r ∈ pending (pid Examples.podcast_one)
                 (tracks (db (Examples.start Examples.undated_pair))) →
        is_Some (track_url r))
  ∧ pending (pid Examples.podcast_one)
      (tracks (db (fst (Podcast_download Examples.curl_fails Examples.loads
                          Examples.takes Examples.podcast_one "/d" false
                          (Examples.start Examples.undated_pair))))) = [].
Proof.
  assert (∀ r, r ∈ pending (pid Examples.podcast_one)
                 (tracks (db (Examples.start Examples.undated_pair))) →
        is_Some (track_url r)) as Hurl.
  { intros r Hin. vm_compute in Hin.
    repeat (apply elem_of_cons in Hin as [-> | Hin]; [by eexists |]).
    by apply not_elem_of_nil in Hin. }
  split; [exact Hurl |].
  apply (second_download_does_nothing Examples.curl_fails Examples.loads
           Examples.takes Examples.podcast_one "/d" "/e"
           (Examples.start Examples.undated_pair) Hurl).
Defined.



Lemma date_ltb_false a b :
  date_ltb a b = false
  ↔ year b < year a
    ∨ (year a = year b
       ∧ (month b < month a ∨ (month a = month b ∧ day b ≤ day a))).
Proof.
  unfold date_ltb.
  rewrite !orb_false_iff, !andb_false_iff, !orb_false_iff, !andb_false_iff,
    !Z.ltb_ge, !Z.eqb_neq.
  lia.
Qed.

Lemma date_ltb_true a b :
  date_ltb a b = true
  ↔ year a < year b
    ∨ (year a = year b
       ∧ (month a < month b ∨ (month a = month b ∧ day a < day b))).
Proof.
  unfold date_ltb.
  rewrite !orb_true_iff, !andb_true_iff, !orb_true_iff, !andb_true_iff,
    !Z.ltb_lt, !Z.eqb_eq.
  lia.
Qed.

Lemma later_first_trans p q r : later_first p q → later_first q r → later_first p r.
Proof. unfold later_first. rewrite !date_ltb_false. lia. Qed.

Lemma later_first_flip p q : date_ltb (snd p) (snd q) = true → later_first q p.
Proof. unfold later_first. rewrite date_ltb_true, date_ltb_false. lia. Qed.

Lemma insert_desc_sorted x l :
  StronglySorted later_first l → StronglySorted later_first (insert_desc x l).
Proof.
  induction l as [|y l IH]; intros Hs; simpl.
  - repeat constructor.
  - apply StronglySorted_inv in Hs as [Hl Hy].
    destruct (date_ltb (snd x) (snd y)) eqn:Hxy.
    + constructor; [by apply IH |].
      rewrite insert_desc_perm. constructor; [by apply later_first_flip | done].
    + constructor; [by constructor |].
      constructor; [done |].
      eapply Forall_impl; [exact Hy |].
      intros z Hz. by apply (later_first_trans x y z).
Qed.

Lemma sort_desc_sorted l : StronglySorted later_first (sort_desc l).
Proof.
  induction l as [|x l IH]; simpl; [constructor | by apply insert_desc_sorted].
Qed.

Lemma with_keys_keyed l ks :
  with_keys l = Some ks → Forall (λ p, published (fst p) = Some (snd p)) ks.
Proof.
  revert ks. induction l as [|r l IH]; intros ks; simpl.
  - intros [= <-]. constructor.
  - destruct (published r) as [d|] eqn:Hd; [|discriminate].
    destruct (with_keys l) as [ks'|]; [|discriminate].
    intros [= <-]. constructor; [done | by apply IH].
Qed.

Lemma keyed_sorted_rows ks :
  Forall (λ p, published (fst p) = Some (snd p)) ks →
  StronglySorted later_first ks →
  StronglySorted not_older (fst <$> ks).
Proof.
  intros Hk Hs. induction Hs as [|p ks Hs IH Hall]; simpl; [constructor |].
  apply Forall_cons in Hk as [Hp Hk]. constructor; [by apply IH |].
  rewrite Forall_fmap.
  eapply Forall_impl; [apply Forall_and; split; [exact Hall | exact Hk] |].
  intros q [Hpq Hkq] d1 d2 H1 H2. simpl in *.
  rewrite Hp in H1. rewrite Hkq in H2.
  injection H1 as <-. injection H2 as <-. exact Hpq.
Qed.

(** The sort puts later dates first, when it returns. *)
Lemma sorted_by_published_sorted l s :
  sorted_by_published l = Returned s → s ≡ₚ l ∧ StronglySorted not_older s.
Proof.
  unfold sorted_by_published.
  destruct l as [|a [|b l]].
  - intros [= <-]. split; [done | constructor].
  - intros [= <-]. split; [done | repeat constructor].
  - destruct (with_keys (a :: b :: l)) as [ks|] eqn:Hks; [|discriminate].
    intros [= <-]. split.
    + rewrite sort_desc_perm. by rewrite (with_keys_fst _ _ Hks).
    + apply keyed_sorted_rows; [|apply sort_desc_sorted].
      rewrite sort_desc_perm. apply (with_keys_keyed _ _ Hks).
Qed.

Lemma write_entries_text re_sub extm3u ts :
  (extm3u = true → ∀ r, r ∈ ts → is_Some (track_file r) → is_Some (title r)) →
  write_entries re_sub extm3u None ts
  = (joined (entry_text extm3u <$> ts), Returned tt).
Proof.
  induction ts as [|r ts IH]; intros Ht; [reflexivity |].
  simpl. rewrite IH by (intros He r' Hin; apply (Ht He); by right).
  unfold write_entry, entry_text. simpl.
  destruct (track_file r) as [f|] eqn:Hf; [|reflexivity].
  destruct extm3u; [|reflexivity].
  destruct (Ht eq_refl r) as [t Htitle]; [left | by eexists |].
  rewrite Htitle. reflexivity.
Qed.

(** X13. For a podcast whose episodes are all dated (or that has at most
    one episode), and whose downloaded episodes have a title when the
    extended format is asked for, a playlist without path substitution
    returns and writes the header followed by the entries of the
    podcast's episodes taken in an order that is a rearrangement of the
    stored one with no earlier date before a later one; an episode
    without a file contributes nothing. *)
Theorem playlist_lists_downloads_newest_first
    (re_sub : string → string → string → option string)
    self file extm3u w :
  let ts := Sql.select (podcast_is (pid self)) (tracks (db w)) in
  (length ts ≤ 1)%nat ∨ (∀ r, r ∈ ts → is_Some (published r)) →
  (extm3u = true → ∀ r, r ∈ ts → is_Some (track_file r) → is_Some (title r)) →
  ∃ sorted,
    sorted ≡ₚ ts
    ∧ StronglySorted not_older sorted
    ∧ Podcast_dump_to_m3u re_sub self file None extm3u None w
      = ({| db := db w;
            trace := trace w
                     ++ [FileWritten file
                           ((if extm3u then "#EXTM3U" +:+ newline +:+ newline
                             else EmptyString)
                            +:+ joined (entry_text extm3u <$> sorted))] |},
         Returned tt).
Proof.
  intros ts Hok Htitle.
  destruct (sorted_by_published_returns ts Hok) as (s & Hs & Hperm).
  destruct (sorted_by_published_sorted ts s Hs) as [_ Hsorted].
  exists s. split; [done |]. split; [done |].
  unfold Podcast_dump_to_m3u, Podcast_get_tracks, bind, read_tracks, ret.
  fold ts. rewrite Hs.
  rewrite write_entries_text; [reflexivity |].
  intros He r Hin. apply (Htitle He). by rewrite <- Hperm.
Qed.

Lemma playlist_lists_downloads_newest_first_witness :
  (∀ r, r ∈ Sql.select (podcast_is 1) (tracks Examples.shelf) →
        is_Some (published r))
  ∧ ∃ sorted,
      sorted ≡ₚ Sql.select (podcast_is 1) (tracks Examples.shelf)
      ∧ snd (Podcast_dump_to_m3u Examples.no_regex Examples.podcast_one
               "/out/One.m3u" None false None (Examples.start Examples.shelf))
        = Returned tt.
Proof.
  assert (∀ r, r ∈ Sql.select (podcast_is 1) (tracks Examples.shelf) →
               is_Some (published r)) as Hdated.
  { intros r Hin. vm_compute in Hin.
    repeat (apply elem_of_cons in Hin as [-> | Hin]; [by eexists |]).
    by apply not_elem_of_nil in Hin. }
  split; [exact Hdated |].
  destruct (playlist_lists_downloads_newest_first Examples.no_regex
              Examples.podcast_one "/out/One.m3u" false
              (Examples.start Examples.shelf) (or_intror Hdated))
    as (sorted & Hperm & _ & Hrun); [discriminate |].
  exists sorted. split; [exact Hperm |]. by rewrite Hrun.
Defined.

(** On the shelf above the later episode comes first and the episode
    without a file is left out. *)
Lemma playlist_of_shelf :
  trace (fst (Podcast_dump_to_m3u Examples.no_regex Examples.podcast_one
                "/out/One.m3u" None false None (Examples.start Examples.shelf)))
  = [FileWritten "/out/One.m3u"
       ("/d/cast1-b.mp3" +:+ newline +:+ "/d/cast1-a.mp3" +:+ newline)].
Proof. reflexivity. Qed.

Lemma all_chars_append P a b :
  all_chars P (a +:+ b) = all_chars P a && all_chars P b.
Proof.
  induction a as [|c a IH]; [reflexivity |].
  change (String c a +:+ b) with (String c (a +:+ b)). simpl.
  by rewrite IH, andb_assoc.
Qed.

Lemma all_plain_collapse b s : all_chars is_plain (collapse b s) = true.
Proof.
  revert b. induction s as [|c s IH]; intros b; [reflexivity |].
  simpl. destruct (is_plain c) eqn:Hc; simpl.
  - by rewrite Hc, IH.
  - destruct b; [apply IH |]. simpl. apply IH.
Qed.

Lemma all_chars_lstrip P s : all_chars P s = true → all_chars P (lstrip s) = true.
Proof.
  induction s as [|c s IH]; [done |].
  simpl. intros [Hc Hs]%andb_true_iff.
  destruct (is_space c); [by apply IH |]. simpl. by rewrite Hc, Hs.
Qed.

Lemma all_chars_rstrip P s : all_chars P s = true → all_chars P (rstrip s) = true.
Proof.
  induction s as [|c s IH]; [done |].
  simpl. intros [Hc Hs]%andb_true_iff. specialize (IH Hs).
  destruct (rstrip s) as [|c' tail].
  - destruct (is_space c); [done |]. simpl. by rewrite Hc.
  - change (all_chars P (String c (String c' tail)))
      with (P c && all_chars P (String c' tail)). by rewrite Hc, IH.
Qed.

Lemma first_char_lstrip s c : first_char (lstrip s) = Some c → is_space c = false.
Proof.
  induction s as [|c' s IH]; [discriminate |].
  simpl. destruct (is_space c') eqn:Hc'; [exact IH |].
  simpl. by intros [= <-].
Qed.

Lemma first_char_rstrip s c :
  first_char (rstrip s) = Some c → first_char s = Some c.
Proof.
  destruct s as [|c' s]; [discriminate |].
  simpl. destruct (rstrip s) as [|c'' tail].
  - destruct (is_space c'); [discriminate | done].
  - done.
Qed.

Lemma last_char_rstrip s c : last_char (rstrip s) = Some c → is_space c = false.
Proof.
  induction s as [|c' s IH]; [discriminate |].
  simpl. destruct (rstrip s) as [|c'' tail].
  - destruct (is_space c') eqn:Hc'; [discriminate |]. simpl. by intros [= <-].
  - exact IH.
Qed.

(** X14. The playlist file name derived from a podcast name holds only
    letters, digits and spaces, and neither starts nor ends with white
    space. *)
Theorem playlist_name_is_plain n :
  ∃ s, safe_file_name (Some n) = Returned s
       ∧ all_chars is_plain s = true
       ∧ (∀ c, first_char s = Some c → is_space c = false)
       ∧ (∀ c, last_char s = Some c → is_space c = false).
Proof.
  eexists. split; [reflexivity |]. unfold strip. split; [|split].
  - apply all_chars_rstrip, all_chars_lstrip, all_plain_collapse.
  - intros c Hc. by apply first_char_rstrip, first_char_lstrip in Hc.
  - intros c. apply last_char_rstrip.
Qed.

Lemma split_pieces sep s : Forall (λ p, all_chars (λ c, negb (Ascii.eqb c sep)) p = true)
                             (split sep s).
Proof.
  induction s as [|c s IH]; simpl; [by repeat constructor |].
  destruct (Ascii.eqb c sep) eqn:Hc.
  - constructor; [reflexivity | exact IH].
  - destruct (split sep s) as [|h t]; [repeat constructor; simpl; by rewrite Hc |].
    apply Forall_cons in IH as [Hh Ht]. constructor; [|done].
    simpl. by rewrite Hc, Hh.
Qed.

Lemma split_nonempty sep s : split sep s ≠ [].
Proof.
  destruct s as [|c s]; [done |]. simpl.
  destruct (Ascii.eqb c sep); [done |]. by destruct (split sep s).
Qed.

Lemma last_item_in l : l ≠ [] → last_item l ∈ l.
Proof.
  unfold last_item. induction l as [|x l IH]; [done |]. intros _.
  destruct l as [|y l]; [left |]. right. by apply IH.
Qed.

Lemma last_segment_no_slash g :
  all_chars no_slash (last_item (split "/" g)) = true.
Proof.
  pose proof (split_pieces "/" g) as Hall.
  rewrite Forall_forall in Hall. apply (Hall (last_item (split "/" g))).
  apply last_item_in, split_nonempty.
Qed.

Lemma uint_no_slash d : all_chars no_slash (NilEmpty.string_of_uint d) = true.
Proof. induction d; simpl; done. Qed.

Lemma format_int_no_slash n : all_chars no_slash (format_int n) = true.
Proof.
  unfold format_int, NilZero.string_of_int.
  destruct (Z.to_int n) as [d|d]; unfold NilZero.string_of_uint.
  - destruct d; try reflexivity; apply (uint_no_slash _).
  - simpl. destruct d; try reflexivity; apply (uint_no_slash _).
Qed.

(** X15. The download file name is the directory, a slash, and a base name
    without any slash: whatever the gid, the file is placed directly in
    the directory. *)
Theorem download_file_sits_in_directory directory self_id g :
  ∃ base, file_name_of directory self_id g = directory +:+ "/" +:+ base
          ∧ all_chars no_slash base = true.
Proof.
  exists ("cast" +:+ format_int self_id +:+ "-"
            +:+ last_item (split "/" g) +:+ ".mp3").
  split; [reflexivity |].
  rewrite !all_chars_append, format_int_no_slash, last_segment_no_slash.
  reflexivity.
Qed.
